(** * The sliding-tile puzzle component: board engine and session controller

    A shallow embedding of the [<script setup>] block of the puzzle
    component (GRID_SIZE = 4, sixteen tiles, label 15 the empty slot) and the
    properties of its board and timer logic.

    Reactive references become fields of a [state] record that every
    function threads explicitly.  JavaScript arrays are modelled with the
    behaviour the component relies on: reads outside the array give
    [undefined], writes past the end extend the array, and the iteration
    methods skip holes. *)

From Stdlib Require Import ZArith Lia Bool.
From stdpp Require Import base option list numbers.
From stdpp Require pretty.
Import Stdlib.Strings.String.StringSyntax Stdlib.Strings.Ascii.AsciiSyntax.

Local Open Scope Z_scope.
Delimit Scope string_scope with string.
Delimit Scope char_scope with char.

(** ** JavaScript values and arrays *)

Module Js.

(** The values the component stores in an array cell: a number (always an
    integer here) or [undefined]. *)
Inductive value : Type :=
| Undefined
| Num (n : Z).

#[global] Instance value_eq_dec : EqDecision value.
Proof. solve_decision. Defined.

(** An array is a list of cells; [None] is a hole (an index below
    [length] that is not an own property of the array). *)
Abbreviation array := (list (option value)).

Definition length (a : array) : Z := Z.of_nat (List.length a).

(** [a[i]]: a hole, an index past the end and a negative index all read
    as [undefined]. *)
Definition get (a : array) (i : Z) : value :=
  if decide (i < 0) then Undefined
  else match a !! Z.to_nat i with
       | Some (Some v) => v
       | _ => Undefined
       end.

(** [a[i] = v].  Inside the array the cell is replaced; at or past the end
    the array grows, leaving holes in between.  A negative index is not an
    array index: the assignment creates a named property, which no
    operation used by the component ([...a], [every], [indexOf],
    [filter], [v-for]) ever reads, so the elements are unchanged. *)
Definition set (a : array) (i : Z) (v : value) : array :=
  if decide (i < 0) then a
  else
    let k := Z.to_nat i in
    if decide (k < List.length a)%nat then <[k := Some v]> a
    else a ++ replicate (k - List.length a) None ++ [Some v].

(** [[...a]]: a fresh array, holes read through the iterator become
    [undefined]. *)
Definition spread (a : array) : array :=
  (λ c, Some (default Undefined c)) <$> a.

(** [a.every((x, k) => p x k)], started at index [k]; holes are skipped. *)
Fixpoint every_from (p : value → Z → bool) (k : Z) (a : array) : bool :=
  match a with
  | [] => true
  | None :: r => every_from p (k + 1) r
  | Some v :: r => p v k && every_from p (k + 1) r
  end.

Definition every (p : value → Z → bool) (a : array) : bool :=
  every_from p 0 a.

(** [a.indexOf(v)] by strict equality, [-1] when absent; a hole never
    matches. *)
Fixpoint indexOf_from (v : value) (k : Z) (a : array) : Z :=
  match a with
  | [] => -1
  | c :: r => if decide (c = Some v) then k else indexOf_from v (k + 1) r
  end.

Definition indexOf (a : array) (v : value) : Z := indexOf_from v 0 a.

(** [a.filter(p)]: a dense array of the kept values; holes are skipped. *)
Fixpoint filter (p : value → bool) (a : array) : array :=
  match a with
  | [] => []
  | None :: r => filter p r
  | Some v :: r => if p v then Some v :: filter p r else filter p r
  end.

(** [v === n] and [v !== n] against a number. *)
Definition strict_eq (v : value) (n : Z) : bool :=
  match v with
  | Num m => m =? n
  | Undefined => false
  end.

Definition strict_ne (v : value) (n : Z) : bool := negb (strict_eq v n).

(** [a > b]: [undefined] converts to NaN, and every comparison with NaN is
    false. *)
Definition gt (a b : value) : bool :=
  match a, b with
  | Num x, Num y => y <? x
  | _, _ => false
  end.

(** [[a[x], a[y]] = [a[y], a[x]]]: both reads happen first, then [a[x]]
    is assigned, then [a[y]]. *)
Definition swap (a : array) (x y : Z) : array :=
  let vy := get a y in
  let vx := get a x in
  set (set a x vy) y vx.

(** [Array.from({ length: n }, (_, i) => i)]. *)
Definition range (n : Z) : array := (λ i, Some (Num i)) <$> seqZ 0 n.

(** The array literal holding the numbers [l]. *)
Definition of_list (l : list Z) : array := (λ z, Some (Num z)) <$> l.

End Js.

(** ** Constants *)

Definition GRID_SIZE : Z := 4.
Definition TOTAL_TILES : Z := GRID_SIZE * GRID_SIZE.
Definition EMPTY_TILE : Z := TOTAL_TILES - 1.

(** ** Board engine *)

(** [isComplete]: [tiles.value.every((tile, index) => tile === index)]. *)
Definition isComplete (tiles : Js.array) : bool :=
  Js.every (λ tile index, Js.strict_eq tile index) tiles.

Definition findEmptyIndex (tiles : Js.array) : Z :=
  Js.indexOf tiles (Js.Num EMPTY_TILE).

(** [Math.floor(i / GRID_SIZE)] is [Z.div] (rounds down) and [%] is
    [Z.rem] (sign of the dividend). *)
Definition isAdjacent (tiles : Js.array) (index : Z) : bool :=
  let emptyIndex := findEmptyIndex tiles in
  let emptyRow := emptyIndex / GRID_SIZE in
  let emptyCol := Z.rem emptyIndex GRID_SIZE in
  let tileRow := index / GRID_SIZE in
  let tileCol := Z.rem index GRID_SIZE in
  let rowDiff := Z.abs (emptyRow - tileRow) in
  let colDiff := Z.abs (emptyCol - tileCol) in
  (rowDiff =? 1) && (colDiff =? 0) || (rowDiff =? 0) && (colDiff =? 1).

(** The two nested [for] loops of [isSolvable]: [i] runs over
    [0 .. length-1], [j] over [i+1 .. length-1]. *)
Definition countInversions (flatArr : Js.array) : Z :=
  let len := Js.length flatArr in
  fold_left
    (λ inversions i,
       fold_left
         (λ inversions j,
            if Js.gt (Js.get flatArr i) (Js.get flatArr j)
            then inversions + 1 else inversions)
         (seqZ (i + 1) (len - (i + 1))) inversions)
    (seqZ 0 len) 0.

Definition isSolvable (arr : Js.array) : bool :=
  let flatArr := Js.filter (λ x, Js.strict_ne x EMPTY_TILE) arr in
  let inversions := countInversions flatArr in
  let emptyRow := Js.indexOf arr (Js.Num EMPTY_TILE) / GRID_SIZE in
  let emptyRowFromBottom := GRID_SIZE - emptyRow in
  if Z.rem emptyRowFromBottom 2 =? 1
  then Z.rem inversions 2 =? 0
  else Z.rem inversions 2 =? 1.

(** [shuffleArray]: Fisher-Yates over a copy, [i] from the last index down
    to 1.  Floating point is not modelled: [random_index k n] stands for
    the value of [Math.floor(Math.random() * n)] at the [k]-th call of
    [Math.random] in the session.  The function returns the shuffled array
    and the number of calls made so far. *)
Definition shuffleArray (random_index : nat → Z → Z)
    (arr : Js.array) (calls : nat) : Js.array * nat :=
  let shuffled := Js.spread arr in
  fold_left
    (λ '(shuffled, calls) i,
       let j := random_index calls (i + 1) in
       (Js.swap shuffled i j, S calls))
    (reverse (seqZ 1 (Js.length shuffled - 1))) (shuffled, calls).

(** The [do ... while] loop of [initGame].  The loop has no bound in the
    source; [fuel] is the number of iterations allowed, [None] means the
    loop is still running when the fuel is spent. *)
Fixpoint shuffleUntilPlayable (random_index : nat → Z → Z) (fuel : nat)
    (original : Js.array) (calls : nat) : option (Js.array * nat) :=
  match fuel with
  | O => None
  | S fuel' =>
      let '(shuffled, calls') := shuffleArray random_index original calls in
      if negb (isSolvable shuffled)
         || Js.every (λ val idx, Js.strict_eq val idx) shuffled
      then shuffleUntilPlayable random_index fuel' original calls'
      else Some (shuffled, calls')
  end.

(** ** Session controller *)

(** The reactive references of the component ([tiles], [elapsedTime],
    [isTimerRunning], [hasStarted]), the [timerInterval] variable ([None]
    is [null]), and the part of the host the component talks to: the
    intervals registered with [setInterval] and not yet cleared, the next
    interval id, the number of [Math.random] calls made, and the value of
    [isComplete] last seen by the [watch]. *)
Record state : Type := State {
  tiles : Js.array;
  elapsedTime : Z;
  isTimerRunning : bool;
  hasStarted : bool;
  timerInterval : option positive;
  activeIntervals : list positive;
  nextIntervalId : positive;
  randomCalls : nat;
  watchedComplete : bool
}.

Definition with_tiles (t : Js.array) (s : state) : state :=
  State t (elapsedTime s) (isTimerRunning s) (hasStarted s) (timerInterval s)
        (activeIntervals s) (nextIntervalId s) (randomCalls s)
        (watchedComplete s).

Definition with_elapsedTime (e : Z) (s : state) : state :=
  State (tiles s) e (isTimerRunning s) (hasStarted s) (timerInterval s)
        (activeIntervals s) (nextIntervalId s) (randomCalls s)
        (watchedComplete s).

Definition with_isTimerRunning (b : bool) (s : state) : state :=
  State (tiles s) (elapsedTime s) b (hasStarted s) (timerInterval s)
        (activeIntervals s) (nextIntervalId s) (randomCalls s)
        (watchedComplete s).

Definition with_hasStarted (b : bool) (s : state) : state :=
  State (tiles s) (elapsedTime s) (isTimerRunning s) b (timerInterval s)
        (activeIntervals s) (nextIntervalId s) (randomCalls s)
        (watchedComplete s).

Definition with_timerInterval (h : option positive) (s : state) : state :=
  State (tiles s) (elapsedTime s) (isTimerRunning s) (hasStarted s) h
        (activeIntervals s) (nextIntervalId s) (randomCalls s)
        (watchedComplete s).

Definition with_randomCalls (n : nat) (s : state) : state :=
  State (tiles s) (elapsedTime s) (isTimerRunning s) (hasStarted s)
        (timerInterval s) (activeIntervals s) (nextIntervalId s) n
        (watchedComplete s).

Definition with_watchedComplete (b : bool) (s : state) : state :=
  State (tiles s) (elapsedTime s) (isTimerRunning s) (hasStarted s)
        (timerInterval s) (activeIntervals s) (nextIntervalId s)
        (randomCalls s) b.

(** [setInterval(cb, 1000)]: registers the callback and returns its id. *)
Definition setInterval (s : state) : positive * state :=
  let id := nextIntervalId s in
  (id,
   State (tiles s) (elapsedTime s) (isTimerRunning s) (hasStarted s)
         (timerInterval s) (id :: activeIntervals s) (Pos.succ id)
         (randomCalls s) (watchedComplete s)).

(** [clearInterval(id)]. *)
Definition clearInterval (id : positive) (s : state) : state :=
  State (tiles s) (elapsedTime s) (isTimerRunning s) (hasStarted s)
        (timerInterval s) (base.filter (λ i, i ≠ id) (activeIntervals s))
        (nextIntervalId s) (randomCalls s) (watchedComplete s).

Definition startTimer (s : state) : state :=
  if isTimerRunning s then s
  else
    let s := with_isTimerRunning true s in
    let s := with_hasStarted true s in
    let '(id, s) := setInterval s in
    with_timerInterval (Some id) s.

(** An interval id is a positive integer, hence truthy. *)
Definition stopTimer (s : state) : state :=
  let s :=
    match timerInterval s with
    | Some id => with_timerInterval None (clearInterval id s)
    | None => s
    end in
  with_isTimerRunning false s.

Definition resetTimer (s : state) : state :=
  let s := stopTimer s in
  let s := with_elapsedTime 0 s in
  with_hasStarted false s.

(** The callback of [watch(isComplete, ...)]. *)
Definition onCompleteChange (completed : bool) (s : state) : state :=
  if completed && isTimerRunning s then stopTimer s else s.

(** The watcher job, run once the handler of an event has returned: the
    callback is called only when the value of [isComplete] differs from
    the one the watcher saw last. *)
Definition flushWatch (s : state) : state :=
  let completed := isComplete (tiles s) in
  if eqb completed (watchedComplete s) then s
  else onCompleteChange completed (with_watchedComplete completed s).

Definition handleTileClick (index : Z) (s : state) : state :=
  if isComplete (tiles s) then s
  else if isAdjacent (tiles s) index then
    let s := if negb (hasStarted s) then startTimer s else s in
    let emptyIndex := findEmptyIndex (tiles s) in
    let newTiles := Js.spread (tiles s) in
    let newTiles := Js.swap newTiles index emptyIndex in
    with_tiles newTiles s
  else s.

(** The branch of [handleTileClick] that changes the board is taken. *)
Definition moveApplied (index : Z) (s : state) : bool :=
  negb (isComplete (tiles s)) && isAdjacent (tiles s) index.

Definition initGame (random_index : nat → Z → Z) (fuel : nat) (s : state)
    : option state :=
  let original := Js.range TOTAL_TILES in
  match shuffleUntilPlayable random_index fuel original (randomCalls s) with
  | None => None
  | Some (shuffled, calls) =>
      let s := with_randomCalls calls s in
      let s := with_tiles shuffled s in
      Some (resetTimer s)
  end.

Definition resetGame := initGame.

(** The callback given to [setInterval]: [elapsedTime.value++].  The
    counter is a JavaScript number; the sum on [Z] is the one the code
    computes as long as the counter is below 2^53 (at 2^53 the code's
    increment leaves the counter where it is). *)
Definition intervalCallback (s : state) : state :=
  with_elapsedTime (elapsedTime s + 1) s.

(** The state once [<script setup>] has run: no tiles yet, so the watcher
    starts from [isComplete = true]. *)
Definition setup : state :=
  State [] 0 false false None [] 1%positive O (isComplete []).

(** What can happen to a mounted component.  A tick is the host firing the
    callback of interval [id]; it only does so for a registered interval.
    The new-game button and [onMounted] both run [initGame]; the number
    carried by [NewGame] bounds the iterations of its loop. *)
Inductive event : Type :=
| Click (index : Z)
| Tick (id : positive)
| NewGame (fuel : nat)
| Unmounted.

Definition handle (random_index : nat → Z → Z) (e : event) (s : state)
    : option state :=
  match e with
  | Click index => Some (handleTileClick index s)
  | Tick id =>
      if decide (id ∈ activeIntervals s) then Some (intervalCallback s)
      else Some s
  | NewGame fuel => resetGame random_index fuel s
  | Unmounted => Some (stopTimer s)
  end.

(** One event: its handler runs to completion, then the watcher job. *)
Definition step (random_index : nat → Z → Z) (e : event) (s : state)
    : option state :=
  flushWatch <$> handle random_index e s.

(** The states a session can be in: [setup], then any events whose
    handlers return. *)
Inductive reachable (random_index : nat → Z → Z) : state → Prop :=
| reachable_setup : reachable random_index setup
| reachable_step e s s' :
    reachable random_index s →
    step random_index e s = Some s' →
    reachable random_index s'.

(** ** The board and its rules as the specification words them *)

Module Spec.

(** A board is a permutation of the labels [0..15]. *)
Definition board (l : list Z) : Prop := l ≡ₚ seqZ 0 16.

Definition row (p : Z) : Z := p / 4.
Definition col (p : Z) : Z := p `mod` 4.

(** Rows differ by exactly 1 with equal columns, or columns differ by
    exactly 1 with equal rows. *)
Definition adjacent (p e : Z) : Prop :=
  (Z.abs (row p - row e) = 1 ∧ col p = col e)
  ∨ (Z.abs (col p - col e) = 1 ∧ row p = row e).

(** Every position [i] in [0..15] holds the value [i]. *)
Definition solved (l : list Z) : Prop :=
  ∀ i, 0 ≤ i ≤ 15 → l !! Z.to_nat i = Some i.

(** The sequence of the non-empty labels. *)
Definition labels (l : list Z) : list Z :=
  List.filter (λ x, negb (x =? 15)) l.

(** The pairs of positions [(i, j)] of [ls], [i] before [j], whose label
    at [i] exceeds the label at [j]. *)
Definition inversionPairs (ls : list Z) : list (nat * nat) :=
  List.filter
    (λ p, (p.1 <? p.2)%nat && (nth p.2 ls 0 <? nth p.1 ls 0))
    (list_prod (seq 0 (length ls)) (seq 0 (length ls))).

Definition inversions (ls : list Z) : Z :=
  Z.of_nat (length (inversionPairs ls)).

Definition emptyRowFromBottom (emptyIndex : Z) : Z := 4 - emptyIndex / 4.

(** The parity rule. *)
Definition parityRule (l : list Z) (emptyIndex : Z) : Prop :=
  (Z.Odd (emptyRowFromBottom emptyIndex) ∧ Z.Even (inversions (labels l)))
  ∨ (Z.Even (emptyRowFromBottom emptyIndex) ∧ Z.Odd (inversions (labels l))).

(** Exactly one occurrence of the empty-slot label. *)
Definition oneEmpty (l : list Z) : Prop :=
  ∃ e, l !! e = Some 15 ∧ ∀ j, l !! j = Some 15 → j = e.

End Spec.

(** The number of inversions whose first position is [i]: the positions
    after [i] with a smaller label. *)
Definition inversionsFrom (ls : list Z) (i : nat) : nat :=
  length (List.filter (λ j, nth j ls 0 <? nth i ls 0)
            (seq (S i) (length ls - S i))).

(** A tile array that holds a board. *)
Definition holdsBoard (a : Js.array) : Prop :=
  ∃ l, a = Js.of_list l ∧ Spec.board l.

(** The board invariant on the tile array: it holds a permutation of the
    labels with exactly one empty-slot label. *)
Definition boardInvariant (a : Js.array) : Prop :=
  ∃ l, a = Js.of_list l ∧ Spec.board l ∧ Spec.oneEmpty l.

(** The exit test of the loop of [initGame]. *)
Definition playable (arr : Js.array) : bool :=
  negb (negb (isSolvable arr)
        || Js.every (λ val idx, Js.strict_eq val idx) arr).

(** The array tried at iteration [k] of the loop of [initGame] when the
    loop starts after [calls] random draws: each shuffle of the sixteen
    tiles draws fifteen times. *)
Definition attempt (random_index : nat → Z → Z) (calls k : nat) : Js.array :=
  (shuffleArray random_index (Js.range TOTAL_TILES) (calls + 15 * k)).1.

(** A decision procedure for [Spec.board]. *)
Definition boardb (l : list Z) : bool :=
  bool_decide (length l = 16%nat)
  && forallb (λ x, bool_decide (x ∈ l)) (seqZ 0 16).

(** ** Sample sessions *)

(** The state after [setup] with the board [l] in place. *)
Definition sessionWith (l : list Z) : state := with_tiles (Js.of_list l) setup.

(** Positions 0 and 1 exchanged, empty slot at 15. *)
Definition swappedBoard : list Z :=
  [1; 0; 2; 3; 4; 5; 6; 7; 8; 9; 10; 11; 12; 13; 14; 15].

(** One slide away from the solved board, empty slot at 14. *)
Definition almostSolved : list Z :=
  [0; 1; 2; 3; 4; 5; 6; 7; 8; 9; 10; 11; 12; 13; 15; 14].

(** Empty slot in the top-left corner. *)
Definition emptyFirst : list Z :=
  [15; 0; 1; 2; 3; 4; 5; 6; 7; 8; 9; 10; 11; 12; 13; 14].

(** Empty slot in the bottom-left corner. *)
Definition emptyBottomLeft : list Z :=
  [0; 1; 2; 3; 4; 5; 6; 7; 8; 9; 10; 11; 15; 12; 13; 14].

(** A session in the middle of a game: timer running for 42 seconds on
    interval 1. *)
Definition runningSession (l : list Z) : state :=
  State (Js.of_list l) 42 true true (Some 1%positive) [1%positive]
        2%positive 15 false.

(** The session after the first game has been dealt from [setup] with the
    draws of [demoRandom] below. *)
Definition firstGame : state :=
  State (Js.of_list almostSolved) 0 false false None [] 1%positive 15 true.

(** [firstGame] once the watcher job has run. *)
Definition firstGameWatched : state :=
  State (Js.of_list almostSolved) 0 false false None [] 1%positive 15 false.

(** The session after the first click of [firstGameWatched], on the tile
    above the empty slot: the timer runs on interval 1. *)
Definition midGame : state :=
  State (Js.of_list [0; 1; 2; 3; 4; 5; 6; 7; 8; 9; 15; 11; 12; 13; 10; 14])
        0 true true (Some 1%positive) [1%positive] 2%positive 15 false.

(** What holds between the events of a session: the watcher has seen the
    current value of [isComplete]; a complete board has no running timer;
    the timer runs exactly when [timerInterval] holds an interval, and
    that interval is the only one registered. *)
Definition sessionInvariant (s : state) : Prop :=
  watchedComplete s = isComplete (tiles s)
  ∧ (isComplete (tiles s) = true → isTimerRunning s = false)
  ∧ (isTimerRunning s = true ↔ is_Some (timerInterval s))
  ∧ activeIntervals s
    = match timerInterval s with Some id => [id] | None => [] end.

(** A source of random indices that always picks the last index: every
    shuffle is the identity. *)
Definition lastIndexRandom (k : nat) (n : Z) : Z := n - 1.

(** A source of random indices: the first draw picks the next-to-last
    index, every later draw picks the last one, so the first shuffle is
    [almostSolved]. *)
Definition demoRandom (k : nat) (n : Z) : Z :=
  if (k =? 0)%nat then Z.max 0 (n - 2) else n - 1.

(** ** The clock display *)

Module JsString.

(** [n.toString()] for an integer: the decimal digits, with a leading
    minus sign for a negative number.  (JavaScript prints every digit of
    an integer of magnitude below 10^21.) *)
Definition toString (n : Z) : String.string := pretty.pretty n.

(** The first [n] characters of [pad] repeated; [rest] is what is left of
    the current copy of [pad]. *)
Fixpoint filler (pad rest : String.string) (n : nat) : String.string :=
  match n with
  | O => String.EmptyString
  | S n' =>
      match rest with
      | String.String c r => String.String c (filler pad r n')
      | String.EmptyString =>
          match pad with
          | String.String c r => String.String c (filler pad r n')
          | String.EmptyString => String.EmptyString
          end
      end
  end.

(** [s.padStart(targetLength, pad)]: a string that is long enough, or an
    empty [pad], gives [s] back; otherwise [pad] is repeated in front, cut
    to the missing length. *)
Definition padStart (targetLength : nat) (pad s : String.string)
    : String.string :=
  if decide (targetLength ≤ String.length s)%nat then s
  else
    match pad with
    | String.EmptyString => s
    | _ => String.append
             (filler pad pad (targetLength - String.length s)) s
    end.

End JsString.

(** [formattedTime]: minutes and seconds of the elapsed time, each padded
    to two characters, with a colon in between. *)
Definition formattedTime (s : state) : String.string :=
  let minutes := elapsedTime s / 60 in
  let seconds := Z.rem (elapsedTime s) 60 in
  String.append
    (JsString.padStart 2 "0"%string (JsString.toString minutes))
    (String.append ":"%string
       (JsString.padStart 2 "0"%string (JsString.toString seconds))).

(** The character of a decimal digit. *)
Definition digitChar (d : Z) : Ascii.ascii :=
  Ascii.ascii_of_nat (48 + Z.to_nat d).

(** The [MM:SS] display of [t] seconds, digit by digit. *)
Definition clockFace (t : Z) : String.string :=
  String.String (digitChar (t / 600))
    (String.String (digitChar ((t / 60) `mod` 10))
       (String.String ":"%char
          (String.String (digitChar ((t `mod` 60) / 10))
             (String.String (digitChar (t `mod` 10))
                String.EmptyString)))).

(** The two digits of a number below one hundred. *)
Definition twoDigits (n : Z) : String.string :=
  String.String (digitChar (n / 10))
    (String.String (digitChar (n `mod` 10)) String.EmptyString).

(** [midGame] after the click that brings tile 10 home: one slide is left
    and the timer still runs. *)
Definition lastMove : state :=
  State (Js.of_list almostSolved) 0 true true (Some 1%positive)
        [1%positive] 2%positive 15 false.

(** [lastMove] after the last slide: the board is complete, the timer has
    been stopped by the watcher. *)
Definition wonGame : state :=
  State (Js.of_list (seqZ 0 16)) 0 false true None [] 2%positive 15 true.

(** The test of [isAdjacent] as a function of the empty index. *)
Definition adjacentTo (emptyIndex index : Z) : bool :=
  let emptyRow := emptyIndex / GRID_SIZE in
  let emptyCol := Z.rem emptyIndex GRID_SIZE in
  let tileRow := index / GRID_SIZE in
  let tileCol := Z.rem index GRID_SIZE in
  let rowDiff := Z.abs (emptyRow - tileRow) in
  let colDiff := Z.abs (emptyCol - tileCol) in
  (rowDiff =? 1) && (colDiff =? 0) || (rowDiff =? 0) && (colDiff =? 1).

(** The positions of the grid whose click is applied. *)
Definition legalMoves (s : state) : list Z :=
  List.filter (λ p, moveApplied p s) (seqZ 0 TOTAL_TILES).

(** The session after the click at position -4 on [emptyFirst]: cell 0
    holds [undefined] and no cell holds the empty label. *)
Definition lostEmpty : state := handleTileClick (-4) (sessionWith emptyFirst).

(** The inversions of a sequence of labels, counted from the front: for
    each label, the smaller labels after it. *)
Fixpoint invCount (ls : list Z) : nat :=
  match ls with
  | [] => O
  | x :: r => (length (List.filter (λ y, (y <? x)%Z) r) + invCount r)%nat
  end.

(** The sessions the page can produce.  The template renders one tile per
    cell of [tiles], and the click handler of a tile is called with the
    index of its cell: a click carries an index below the length of the
    array.  Ticks, the new-game button and the unmount are as in
    [reachable]. *)
Inductive uiReachable (random_index : nat → Z → Z) : state → Prop :=
| uiReachable_setup : uiReachable random_index setup
| uiReachable_click index s s' :
    uiReachable random_index s →
    0 ≤ index < Js.length (tiles s) →
    step random_index (Click index) s = Some s' →
    uiReachable random_index s'
| uiReachable_other e s s' :
    uiReachable random_index s →
    (∀ index, e ≠ Click index) →
    step random_index e s = Some s' →
    uiReachable random_index s'.

(** The source of random indices that follows the list [js]: the [k]-th
    draw is the [k]-th number of the list, brought into the range of the
    draw. *)
Definition oracleOf (js : list Z) (k : nat) (n : Z) : Z :=
  Z.max 0 (Z.min (nth k js 0) (n - 1)).

(** What the clock keeps between the events of a session, on top of
    [sessionInvariant]: a running timer means a started session, the
    elapsed time is 0 until the session starts, and it is never negative. *)
Definition clockInvariant (s : state) : Prop :=
  sessionInvariant s
  ∧ (isTimerRunning s = true → hasStarted s = true)
  ∧ (hasStarted s = false → elapsedTime s = 0)
  ∧ 0 ≤ elapsedTime s.

(** A sequence of events, one after the other. *)
Fixpoint steps (random_index : nat → Z → Z) (es : list event) (s : state)
    : option state :=
  match es with
  | [] => Some s
  | e :: es' =>
      match step random_index e s with
      | Some s' => steps random_index es' s'
      | None => None
      end
  end.

(** A click or a tick, the events that can follow the completion of the
    board without starting a new game. *)
Definition isPlayEvent (e : event) : bool :=
  match e with
  | Click _ | Tick _ => true
  | NewGame _ | Unmounted => false
  end.

(** ** Facts about the array operations *)

Lemma of_list_length (l : list Z) : length (Js.of_list l) = length l.
Proof. apply length_fmap. Qed.

Lemma of_list_lookup (l : list Z) (i : nat) :
  Js.of_list l !! i = (λ z, Some (Js.Num z)) <$> (l !! i).
Proof. apply list_lookup_fmap. Qed.

Lemma get_of_list (l : list Z) (i : Z) :
  0 ≤ i →
  Js.get (Js.of_list l) i =
    match l !! Z.to_nat i with Some z => Js.Num z | None => Js.Undefined end.
Proof.
  intros Hi. unfold Js.get. destruct (decide (i < 0)) as [?|_]; [lia|].
  rewrite of_list_lookup. by destruct (l !! Z.to_nat i).
Qed.

Lemma get_of_list_Some (l : list Z) (i : nat) (z : Z) :
  l !! i = Some z → Js.get (Js.of_list l) (Z.of_nat i) = Js.Num z.
Proof.
  intros H. rewrite get_of_list by lia. by rewrite Nat2Z.id, H.
Qed.

Lemma spread_of_list (l : list Z) : Js.spread (Js.of_list l) = Js.of_list l.
Proof.
  unfold Js.spread, Js.of_list. rewrite <- list_fmap_compose.
  by apply list_fmap_ext.
Qed.

Lemma set_of_list (l : list Z) (i : nat) (z : Z) :
  (i < length l)%nat →
  Js.set (Js.of_list l) (Z.of_nat i) (Js.Num z) = Js.of_list (<[i := z]> l).
Proof.
  intros Hi. unfold Js.set.
  destruct (decide (Z.of_nat i < 0)) as [?|_]; [lia|].
  rewrite Nat2Z.id, of_list_length.
  destruct (decide (i < length l)%nat) as [_|?]; [|lia].
  unfold Js.of_list. by rewrite list_fmap_insert.
Qed.

(** The swap of two positions inside the array is the swap of the two
    list elements. *)
Lemma swap_of_list (l : list Z) (x y : nat) (vx vy : Z) :
  l !! x = Some vx → l !! y = Some vy →
  Js.swap (Js.of_list l) (Z.of_nat x) (Z.of_nat y)
  = Js.of_list (<[y := vx]> (<[x := vy]> l)).
Proof.
  intros Hx Hy. unfold Js.swap.
  rewrite (get_of_list_Some _ _ _ Hx), (get_of_list_Some _ _ _ Hy).
  rewrite set_of_list by (by eapply lookup_lt_Some).
  rewrite set_of_list; [done|].
  rewrite length_insert. by eapply lookup_lt_Some.
Qed.

Lemma indexOf_from_of_list (l : list Z) (v : Z) (e : nat) (k : Z) :
  l !! e = Some v →
  (∀ j, (j < e)%nat → l !! j ≠ Some v) →
  Js.indexOf_from (Js.Num v) k (Js.of_list l) = k + Z.of_nat e.
Proof.
  revert e k. induction l as [|a l IH]; intros e k He Hfirst; [done|].
  cbn [Js.of_list fmap list_fmap Js.indexOf_from].
  destruct e as [|e]; simpl in He.
  - simplify_eq. destruct (decide _) as [_|Hne]; [lia|done].
  - destruct (decide _) as [Heq|_].
    + simplify_eq. by destruct (Hfirst O); [lia|].
    + fold (Js.of_list l). rewrite (IH e (k + 1)); [lia|done|].
      intros j Hj. apply (Hfirst (S j)). lia.
Qed.

Lemma indexOf_from_absent (l : list Z) (v : Z) (k : Z) :
  v ∉ l → Js.indexOf_from (Js.Num v) k (Js.of_list l) = -1.
Proof.
  revert k. induction l as [|a l IH]; intros k Hv; [done|].
  cbn [Js.of_list fmap list_fmap Js.indexOf_from].
  destruct (decide _) as [Heq|_].
  - simplify_eq. by destruct Hv; left.
  - apply IH. intros ?. apply Hv. by right.
Qed.

Lemma NoDup_lookup_first (l : list Z) (e : nat) (v : Z) :
  NoDup l → l !! e = Some v → ∀ j, (j < e)%nat → l !! j ≠ Some v.
Proof.
  intros Hnd He j Hj Hjv.
  pose proof (NoDup_lookup _ _ _ _ Hnd He Hjv). lia.
Qed.

Lemma findEmptyIndex_of_list (l : list Z) (e : nat) :
  NoDup l → l !! e = Some 15 →
  findEmptyIndex (Js.of_list l) = Z.of_nat e.
Proof.
  intros Hnd He. unfold findEmptyIndex, Js.indexOf.
  change EMPTY_TILE with 15.
  rewrite (indexOf_from_of_list l 15 e 0 He); [lia|].
  by apply NoDup_lookup_first.
Qed.

Lemma every_from_of_list (l : list Z) (k : Z) :
  Js.every_from (λ tile index, Js.strict_eq tile index) k (Js.of_list l) = true
  ↔ l = seqZ k (Z.of_nat (length l)).
Proof.
  revert k. induction l as [|a l IH]; intros k; [done|].
  cbn [Js.of_list fmap list_fmap Js.every_from Js.strict_eq length].
  fold (Js.of_list l).
  rewrite Nat2Z.inj_succ, seqZ_cons by lia.
  replace (Z.pred (Z.succ (Z.of_nat (length l)))) with (Z.of_nat (length l))
    by lia.
  rewrite andb_true_iff, IH, Z.eqb_eq. replace (Z.succ k) with (k + 1) by lia.
  split; [intros [-> <-]; done | intros [= -> <-]; done].
Qed.

Lemma isComplete_of_list (l : list Z) :
  isComplete (Js.of_list l) = true ↔ l = seqZ 0 (Z.of_nat (length l)).
Proof. apply every_from_of_list. Qed.

(** ** Facts about boards *)

Lemma board_length (l : list Z) : Spec.board l → length l = 16%nat.
Proof. intros H. by rewrite (Permutation_length H), length_seqZ. Qed.

Lemma board_NoDup (l : list Z) : Spec.board l → NoDup l.
Proof. intros H. unfold Spec.board in H. rewrite H. apply NoDup_seqZ. Qed.

Lemma board_elem_of (l : list Z) (x : Z) :
  Spec.board l → x ∈ l ↔ 0 ≤ x ≤ 15.
Proof.
  intros H. unfold Spec.board in H. rewrite H, elem_of_seqZ. lia.
Qed.

Lemma board_lookup_range (l : list Z) (i : nat) (x : Z) :
  Spec.board l → l !! i = Some x → 0 ≤ x ≤ 15 ∧ (i < 16)%nat.
Proof.
  intros H Hi. split.
  - apply (board_elem_of l x H). by eapply list_elem_of_lookup_2.
  - rewrite <- (board_length l H). by eapply lookup_lt_Some.
Qed.

Lemma board_has_empty (l : list Z) :
  Spec.board l → ∃ e, l !! e = Some 15.
Proof.
  intros H. apply list_elem_of_lookup_1, (board_elem_of l 15 H). lia.
Qed.

(** Exchanging two elements of a list permutes it. *)
Lemma insert_head_Permutation (l : list Z) (j : nat) (a b : Z) :
  l !! j = Some b → b :: <[j := a]> l ≡ₚ a :: l.
Proof.
  revert j. induction l as [|c l IH]; intros [|j] Hj; simplify_eq/=.
  - apply perm_swap.
  - rewrite perm_swap, (IH j Hj). apply perm_swap.
Qed.

Lemma insert_swap_Permutation (l : list Z) (i j : nat) (a b : Z) :
  l !! i = Some a → l !! j = Some b →
  <[j := a]> (<[i := b]> l) ≡ₚ l.
Proof.
  revert i j. induction l as [|c l IH]; intros [|i] [|j] Hi Hj; simplify_eq/=.
  - done.
  - by apply insert_head_Permutation.
  - by apply insert_head_Permutation.
  - by rewrite (IH i j).
Qed.

Lemma board_insert_swap (l : list Z) (i j : nat) (a b : Z) :
  Spec.board l → l !! i = Some a → l !! j = Some b →
  Spec.board (<[j := a]> (<[i := b]> l)).
Proof.
  unfold Spec.board. intros H Hi Hj.
  by rewrite (insert_swap_Permutation l i j a b Hi Hj).
Qed.

Lemma not_solved_iff (l : list Z) :
  Spec.board l → isComplete (Js.of_list l) = false ↔ ¬ Spec.solved l.
Proof.
  intros H. pose proof (board_length l H) as Hlen.
  rewrite <- not_true_iff_false, isComplete_of_list, Hlen.
  apply not_iff_compat. split.
  - intros -> i Hi. rewrite lookup_seqZ. split; lia.
  - intros Hs. apply list_eq. intros i.
    destruct (decide (i < 16)%nat) as [Hi|Hi].
    + rewrite <- (Nat2Z.id i) at 1. rewrite Hs by lia.
      symmetry. apply lookup_seqZ. lia.
    + rewrite !lookup_ge_None_2; [done| |lia].
      rewrite length_seqZ. lia.
Qed.

(** On positions of the grid the adjacency test of the code is the
    orthogonal-neighbour relation. *)
Lemma isAdjacent_spec (a : Js.array) (p e : Z) :
  findEmptyIndex a = e → 0 ≤ e → 0 ≤ p →
  isAdjacent a p = true ↔ Spec.adjacent p e.
Proof.
  intros He He0 Hp0. unfold isAdjacent, Spec.adjacent, Spec.row, Spec.col.
  rewrite He. change GRID_SIZE with 4.
  rewrite !Z.rem_mod_nonneg by lia.
  rewrite orb_true_iff, !andb_true_iff, !Z.eqb_eq. lia.
Qed.

Lemma boardb_sound (l : list Z) : boardb l = true → Spec.board l.
Proof.
  unfold boardb. rewrite andb_true_iff, bool_decide_eq_true, forallb_forall.
  intros [Hlen Hall]. unfold Spec.board. symmetry.
  apply submseteq_length_Permutation.
  - apply NoDup_submseteq; [apply NoDup_seqZ|].
    intros x Hx. apply list_elem_of_In, Hall in Hx.
    by apply bool_decide_eq_true in Hx.
  - rewrite Hlen, length_seqZ. lia.
Qed.

(** ** The move *)

Lemma tiles_startTimer (s : state) : tiles (startTimer s) = tiles s.
Proof. unfold startTimer. by destruct (isTimerRunning s). Qed.

Lemma tiles_stopTimer (s : state) : tiles (stopTimer s) = tiles s.
Proof. unfold stopTimer. by destruct (timerInterval s). Qed.

Lemma tiles_resetTimer (s : state) : tiles (resetTimer s) = tiles s.
Proof. unfold resetTimer. simpl. apply tiles_stopTimer. Qed.

Lemma tiles_flushWatch (s : state) : tiles (flushWatch s) = tiles s.
Proof.
  unfold flushWatch, onCompleteChange.
  destruct (eqb _ _); [done|].
  destruct (_ && _); [by rewrite tiles_stopTimer | done].
Qed.

Lemma handleTileClick_rejected (p : Z) (s : state) :
  moveApplied p s = false → handleTileClick p s = s.
Proof.
  unfold moveApplied, handleTileClick.
  destruct (isComplete (tiles s)); [done|].
  by destruct (isAdjacent (tiles s) p).
Qed.

Lemma handleTileClick_applied (p : Z) (s : state) :
  moveApplied p s = true →
  tiles (handleTileClick p s)
  = Js.swap (Js.spread (tiles s)) p (findEmptyIndex (tiles s)).
Proof.
  unfold moveApplied, handleTileClick.
  destruct (isComplete (tiles s)); [done|].
  destruct (isAdjacent (tiles s) p); [|done]. intros _.
  destruct (negb (hasStarted s)); simpl; by rewrite ?tiles_startTimer.
Qed.

(** An applied move on a board, at a position of the grid, exchanges the
    value at that position with the empty label. *)
Lemma handleTileClick_board (s : state) (l : list Z) (p : Z) (e : nat) :
  tiles s = Js.of_list l → Spec.board l → l !! e = Some 15 →
  0 ≤ p ≤ 15 → moveApplied p s = true →
  ∃ v, l !! Z.to_nat p = Some v
       ∧ tiles (handleTileClick p s)
         = Js.of_list (<[e := v]> (<[Z.to_nat p := 15]> l)).
Proof.
  intros Ht Hb He Hp Happ.
  destruct (lookup_lt_is_Some_2 l (Z.to_nat p)) as [v Hv].
  { rewrite (board_length l Hb). lia. }
  exists v. split; [done|].
  rewrite (handleTileClick_applied p s Happ), Ht, spread_of_list.
  rewrite (findEmptyIndex_of_list l e (board_NoDup l Hb) He).
  rewrite <- (Z2Nat.id p) at 1 by lia.
  by apply swap_of_list.
Qed.

Lemma moveApplied_board (s : state) (l : list Z) (p : Z) (e : nat) :
  tiles s = Js.of_list l → Spec.board l → l !! e = Some 15 → 0 ≤ p →
  moveApplied p s = true ↔ ¬ Spec.solved l ∧ Spec.adjacent p (Z.of_nat e).
Proof.
  intros Ht Hb He Hp. unfold moveApplied.
  rewrite andb_true_iff, negb_true_iff, Ht, (not_solved_iff l Hb).
  rewrite (isAdjacent_spec (Js.of_list l) p (Z.of_nat e)); [done| |lia|done].
  by apply findEmptyIndex_of_list; [apply board_NoDup|].
Qed.

(** C3. On a board, a move request for a position [p] in [0..15] is
    applied iff the board is not solved and [p] is orthogonally adjacent to
    the position [e] of the empty slot; an applied move exchanges exactly
    the values at [p] and at [e]; a rejected one returns the state as it
    was (the handler is a total function: it has no failure outcome). *)
Theorem move_applied_iff_legal (s : state) (l : list Z) (p : Z) (e : nat) :
  tiles s = Js.of_list l → Spec.board l → l !! e = Some 15 → 0 ≤ p ≤ 15 →
  (moveApplied p s = true ↔ ¬ Spec.solved l ∧ Spec.adjacent p (Z.of_nat e))
  ∧ (moveApplied p s = true →
     ∃ v, l !! Z.to_nat p = Some v
          ∧ tiles (handleTileClick p s)
            = Js.of_list (<[e := v]> (<[Z.to_nat p := 15]> l)))
  ∧ (moveApplied p s = false → handleTileClick p s = s).
Proof.
  intros Ht Hb He Hp. split; [|split].
  - apply (moveApplied_board s l p e); [done..|lia].
  - by apply handleTileClick_board.
  - apply handleTileClick_rejected.
Qed.

Lemma move_applied_iff_legal_witness :
  (moveApplied 11 (sessionWith swappedBoard) = true
   ↔ ¬ Spec.solved swappedBoard ∧ Spec.adjacent 11 (Z.of_nat 15))
  ∧ (moveApplied 11 (sessionWith swappedBoard) = true →
     ∃ v, swappedBoard !! Z.to_nat 11 = Some v
          ∧ tiles (handleTileClick 11 (sessionWith swappedBoard))
            = Js.of_list (<[15%nat := v]> (<[Z.to_nat 11 := 15]> swappedBoard)))
  ∧ (moveApplied 11 (sessionWith swappedBoard) = false →
     handleTileClick 11 (sessionWith swappedBoard)
     = sessionWith swappedBoard).
Proof.
  apply (move_applied_iff_legal (sessionWith swappedBoard) swappedBoard 11 15).
  - reflexivity.
  - apply boardb_sound. vm_compute. reflexivity.
  - reflexivity.
  - lia.
Defined.

(** C4. On the board [1,0,2,...,15] the solved predicate is false, the
    request for position 0 is rejected and changes nothing, and the request
    for position 11 is applied and gives [1,0,2,...,10,15,12,13,14,11]. *)
Theorem swapped_board_scenario (s : state) :
  let s0 := with_tiles (Js.of_list swappedBoard) s in
  isComplete (tiles s0) = false
  ∧ moveApplied 0 s0 = false
  ∧ handleTileClick 0 s0 = s0
  ∧ moveApplied 11 s0 = true
  ∧ tiles (handleTileClick 11 s0)
    = Js.of_list [1; 0; 2; 3; 4; 5; 6; 7; 8; 9; 10; 15; 12; 13; 14; 11].
Proof.
  intros s0.
  assert (moveApplied 0 s0 = false) as H0 by reflexivity.
  assert (moveApplied 11 s0 = true) as H11 by reflexivity.
  split; [reflexivity|]. split; [exact H0|].
  split; [by apply handleTileClick_rejected|]. split; [exact H11|].
  by rewrite handleTileClick_applied.
Qed.

Lemma adjacent_irrefl (p : Z) : ¬ Spec.adjacent p p.
Proof. unfold Spec.adjacent. lia. Qed.

Lemma adjacent_sym (p e : Z) : Spec.adjacent p e → Spec.adjacent e p.
Proof. unfold Spec.adjacent. lia. Qed.




(** X27. A move is undone from the position the empty slot came from.
    After an applied move for a position [p] of the grid, with the empty
    slot at [e], the request for the same [p] is rejected ([p] now holds
    the empty slot); the request for [e], unless the first move solved the
    board, is applied and gives back the board from before the first
    move. *)
Theorem move_undone_from_previous_empty
    (s : state) (l : list Z) (p : Z) (e : nat) :
  tiles s = Js.of_list l → Spec.board l → l !! e = Some 15 → 0 ≤ p ≤ 15 →
  moveApplied p s = true →
  let s1 := handleTileClick p s in
  moveApplied p s1 = false
  ∧ handleTileClick p s1 = s1
  ∧ (isComplete (tiles s1) = false →
     moveApplied (Z.of_nat e) s1 = true
     ∧ tiles (handleTileClick (Z.of_nat e) s1) = tiles s).
Proof.
  intros Ht Hb He Hp Happ s1.
  destruct (handleTileClick_board s l p e Ht Hb He Hp Happ) as (v & Hv & Ht1).
  fold s1 in Ht1.
  apply (moveApplied_board s l p e Ht Hb He) in Happ as [_ Hadj]; [|lia].
  assert (Z.to_nat p ≠ e) as Hne.
  { intros <-. rewrite Z2Nat.id in Hadj by lia. by apply adjacent_irrefl in Hadj. }
  pose proof (lookup_lt_Some _ _ _ Hv) as Hplt.
  pose proof (lookup_lt_Some _ _ _ He) as Helt.
  pose proof (board_length l Hb) as Hlen.
  set (l1 := <[e := v]> (<[Z.to_nat p := 15]> l)) in *.
  assert (Spec.board l1) as Hb1 by by apply board_insert_swap.
  assert (l1 !! Z.to_nat p = Some 15) as Hp1.
  { unfold l1. rewrite list_lookup_insert_ne by done.
    by apply list_lookup_insert_eq. }
  assert (l1 !! e = Some v) as He1.
  { unfold l1. apply list_lookup_insert_eq. by rewrite length_insert. }
  assert (moveApplied p s1 = false) as Hrej.
  { apply not_true_iff_false.
    rewrite (moveApplied_board s1 l1 p (Z.to_nat p) Ht1 Hb1 Hp1) by lia.
    rewrite Z2Nat.id by lia. intros [_ H]. by apply adjacent_irrefl in H. }
  split; [done|]. split; [by apply handleTileClick_rejected|].
  intros Hnc.
  assert (moveApplied (Z.of_nat e) s1 = true) as Happ1.
  { rewrite (moveApplied_board s1 l1 _ (Z.to_nat p) Ht1 Hb1 Hp1) by lia.
    split; [by apply (not_solved_iff l1 Hb1); rewrite <- Ht1|].
    rewrite Z2Nat.id by lia. by apply adjacent_sym. }
  split; [done|].
  destruct (handleTileClick_board s1 l1 (Z.of_nat e) (Z.to_nat p) Ht1 Hb1 Hp1)
    as (v' & Hv' & ->); [lia|done|].
  rewrite Nat2Z.id in Hv' |- *. rewrite He1 in Hv'. simplify_eq.
  rewrite Ht. f_equal. unfold l1.
  rewrite list_insert_insert_eq, list_insert_insert_ne by done.
  rewrite list_insert_insert_eq, (list_insert_id _ _ _ Hv).
  by apply list_insert_id.
Qed.

Lemma move_undone_from_previous_empty_witness :
  let s1 := handleTileClick 11 (sessionWith swappedBoard) in
  moveApplied 11 s1 = false
  ∧ handleTileClick 11 s1 = s1
  ∧ (isComplete (tiles s1) = false →
     moveApplied (Z.of_nat 15) s1 = true
     ∧ tiles (handleTileClick (Z.of_nat 15) s1)
       = tiles (sessionWith swappedBoard)).
Proof.
  apply (move_undone_from_previous_empty
           (sessionWith swappedBoard) swappedBoard 11 15).
  - reflexivity.
  - apply boardb_sound. vm_compute. reflexivity.
  - reflexivity.
  - lia.
  - vm_compute. reflexivity.
Defined.

(** C10. On a board with the empty slot at position 12, position 16
    passes the adjacency test and the request is applied: the array grows
    to 17 cells, cell 16 holds the empty label, cell 12 holds [undefined],
    no position in [0..15] holds the empty label, and the array no longer
    holds a board. *)
Theorem out_of_range_move_applied (s : state) (l : list Z) :
  tiles s = Js.of_list l → Spec.board l → l !! 12%nat = Some 15 →
  isAdjacent (tiles s) 16 = true
  ∧ moveApplied 16 s = true
  ∧ tiles (handleTileClick 16 s)
    = <[12%nat := Some Js.Undefined]> (Js.of_list l) ++ [Some (Js.Num 15)]
  ∧ Js.length (tiles (handleTileClick 16 s)) = 17
  ∧ Js.get (tiles (handleTileClick 16 s)) 16 = Js.Num 15
  ∧ (∀ i, 0 ≤ i ≤ 15 → Js.get (tiles (handleTileClick 16 s)) i ≠ Js.Num 15)
  ∧ ¬ holdsBoard (tiles (handleTileClick 16 s)).
Proof.
  intros Ht Hb He.
  pose proof (board_length l Hb) as Hlen.
  pose proof (board_NoDup l Hb) as Hnd.
  pose proof (findEmptyIndex_of_list l 12 Hnd He) as Hidx.
  assert (isAdjacent (tiles s) 16 = true) as Hadj.
  { unfold isAdjacent. rewrite Ht, Hidx. reflexivity. }
  assert (moveApplied 16 s = true) as Happ.
  { unfold moveApplied. rewrite Hadj, andb_true_r, negb_true_iff, Ht.
    apply (not_solved_iff l Hb). intros Hs.
    specialize (Hs 12 ltac:(lia)). change (Z.to_nat 12) with 12%nat in Hs.
    congruence. }
  assert (tiles (handleTileClick 16 s)
          = <[12%nat := Some Js.Undefined]> (Js.of_list l)
            ++ [Some (Js.Num 15)]) as Ht'.
  { rewrite (handleTileClick_applied 16 s Happ), Ht, spread_of_list, Hidx.
    unfold Js.swap.
    rewrite (get_of_list_Some l 12 15 He).
    rewrite get_of_list, (lookup_ge_None_2 l (Z.to_nat 16)) by lia.
    unfold Js.set. simpl decide.
    rewrite of_list_length, Hlen. simpl.
    rewrite length_app, of_list_length, Hlen. simpl.
    rewrite insert_app_l; [done|]. rewrite of_list_length. lia. }
  split; [done|]. split; [done|]. split; [done|]. rewrite Ht'.
  assert (length (<[12%nat := Some Js.Undefined]> (Js.of_list l)) = 16%nat)
    as Hlen' by by rewrite length_insert, of_list_length.
  split; [|split; [|split]].
  - unfold Js.length. rewrite length_app, Hlen'. reflexivity.
  - unfold Js.get. simpl decide. cbv iota.
    rewrite lookup_app_r; rewrite Hlen'; [reflexivity|]. lia.
  - intros i Hi. unfold Js.get.
    destruct (decide (i < 0)) as [?|_]; [lia|].
    rewrite lookup_app_l by lia.
    destruct (decide (Z.to_nat i = 12%nat)) as [->|Hne].
    + rewrite list_lookup_insert_eq; [done|]. rewrite of_list_length. lia.
    + rewrite list_lookup_insert_ne, of_list_lookup by done.
      destruct (l !! Z.to_nat i) as [z|] eqn:Hz; [|done]. simpl.
      intros [= ->]. by pose proof (NoDup_lookup _ _ _ _ Hnd He Hz).
  - intros (l' & Heq & Hb').
    apply (f_equal length) in Heq.
    rewrite length_app, Hlen', of_list_length, (board_length l' Hb') in Heq.
    simpl in Heq. lia.
Qed.

Lemma out_of_range_move_applied_witness :
  isAdjacent (tiles (sessionWith emptyBottomLeft)) 16 = true
  ∧ moveApplied 16 (sessionWith emptyBottomLeft) = true
  ∧ tiles (handleTileClick 16 (sessionWith emptyBottomLeft))
    = <[12%nat := Some Js.Undefined]> (Js.of_list emptyBottomLeft)
      ++ [Some (Js.Num 15)]
  ∧ Js.length (tiles (handleTileClick 16 (sessionWith emptyBottomLeft))) = 17
  ∧ Js.get (tiles (handleTileClick 16 (sessionWith emptyBottomLeft))) 16
    = Js.Num 15
  ∧ (∀ i, 0 ≤ i ≤ 15 →
       Js.get (tiles (handleTileClick 16 (sessionWith emptyBottomLeft))) i
       ≠ Js.Num 15)
  ∧ ¬ holdsBoard (tiles (handleTileClick 16 (sessionWith emptyBottomLeft))).
Proof.
  apply (out_of_range_move_applied (sessionWith emptyBottomLeft)
           emptyBottomLeft).
  - reflexivity.
  - apply boardb_sound. vm_compute. reflexivity.
  - reflexivity.
Defined.

(** ** The shuffle *)

Lemma board_oneEmpty (l : list Z) : Spec.board l → Spec.oneEmpty l.
Proof.
  intros Hb. destruct (board_has_empty l Hb) as [e He].
  exists e. split; [done|]. intros j Hj.
  by apply (NoDup_lookup l j e 15 (board_NoDup l Hb)).
Qed.

Lemma holdsBoard_invariant (a : Js.array) : holdsBoard a ↔ boardInvariant a.
Proof.
  split.
  - intros (l & -> & Hb). exists l. eauto using board_oneEmpty.
  - intros (l & -> & Hb & _). by exists l.
Qed.

Lemma range_of_list (n : Z) : Js.range n = Js.of_list (seqZ 0 n).
Proof. reflexivity. Qed.

Lemma board_solved_list : Spec.board (seqZ 0 16).
Proof. unfold Spec.board. reflexivity. Qed.

Section Shuffle.

Variable random_index : nat → Z → Z.

(** [Math.random()] lies in [0, 1), so
    [Math.floor(Math.random() * n)] lies in [0 .. n-1]. *)
Hypothesis random_index_range : ∀ k n, 0 < n → 0 ≤ random_index k n < n.

Lemma shuffle_loop_board (idxs : list Z) (l : list Z) (calls : nat) :
  Spec.board l → Forall (λ i, 1 ≤ i ≤ 15) idxs →
  ∃ l', fold_left
          (λ '(shuffled, calls) i,
             let j := random_index calls (i + 1) in
             (Js.swap shuffled i j, S calls))
          idxs (Js.of_list l, calls)
        = (Js.of_list l', (calls + length idxs)%nat)
        ∧ Spec.board l'.
Proof.
  intros Hb His. revert l calls Hb.
  induction His as [|i idxs Hi _ IH]; intros l calls Hb.
  - exists l. simpl. by rewrite Nat.add_0_r.
  - cbn [fold_left length].
    pose proof (random_index_range calls (i + 1) ltac:(lia)) as Hj.
    set (j := random_index calls (i + 1)) in *.
    pose proof (board_length l Hb) as Hlen.
    destruct (lookup_lt_is_Some_2 l (Z.to_nat i)) as [vi Hvi]; [lia|].
    destruct (lookup_lt_is_Some_2 l (Z.to_nat j)) as [vj Hvj]; [lia|].
    rewrite <- (Z2Nat.id i), <- (Z2Nat.id j) by lia.
    rewrite (swap_of_list l _ _ vi vj Hvi Hvj).
    destruct (IH (<[Z.to_nat j := vi]> (<[Z.to_nat i := vj]> l)) (S calls))
      as (l' & Hl' & Hb'); [by apply board_insert_swap|].
    exists l'. split; [|done].
    etrans; [exact Hl'|]. f_equal. lia.
Qed.

Lemma shuffleArray_board (calls : nat) :
  ∃ l, shuffleArray random_index (Js.range TOTAL_TILES) calls
       = (Js.of_list l, (calls + 15)%nat)
       ∧ Spec.board l.
Proof.
  unfold shuffleArray. change TOTAL_TILES with 16.
  rewrite range_of_list, spread_of_list.
  apply (shuffle_loop_board (reverse (seqZ 1 15)) (seqZ 0 16) calls).
  - apply board_solved_list.
  - apply Forall_reverse, Forall_seqZ. intros; lia.
Qed.

Lemma shuffleUntilPlayable_output
    (fuel calls calls' : nat) (shuffled : Js.array) :
  shuffleUntilPlayable random_index fuel (Js.range TOTAL_TILES) calls
  = Some (shuffled, calls') →
  holdsBoard shuffled ∧ isSolvable shuffled = true
  ∧ isComplete shuffled = false.
Proof.
  revert calls. induction fuel as [|fuel IH]; intros calls; [done|].
  cbn [shuffleUntilPlayable].
  destruct (shuffleArray_board calls) as (l & -> & Hb).
  destruct (isSolvable (Js.of_list l)) eqn:Hs; simpl.
  - fold (isComplete (Js.of_list l)).
    destruct (isComplete (Js.of_list l)) eqn:Hc; [apply IH|].
    intros [= <- <-]. split; [by exists l | done].
  - apply IH.
Qed.

End Shuffle.

Lemma every_from_false (p : Js.value → Z → bool) (k : Z) (a : Js.array) :
  Js.every_from p k a = false →
  ∃ (i : nat) v, a !! i = Some (Some v) ∧ p v (k + Z.of_nat i) = false.
Proof.
  revert k. induction a as [|[v|] a IH]; intros k; simpl; [done|..].
  - destruct (p v k) eqn:Hp; simpl.
    + intros (i & w & Hi & Hw)%IH. exists (S i), w. split; [done|].
      by replace (k + Z.of_nat (S i)) with (k + 1 + Z.of_nat i) by lia.
    + intros _. exists O, v. split; [done|]. by rewrite Z.add_0_r.
  - intros (i & w & Hi & Hw)%IH. exists (S i), w. split; [done|].
    by replace (k + Z.of_nat (S i)) with (k + 1 + Z.of_nat i) by lia.
Qed.

Lemma demoRandom_range (k : nat) (n : Z) : 0 < n → 0 ≤ demoRandom k n < n.
Proof. unfold demoRandom. destruct (k =? 0)%nat; lia. Qed.

(** C1. Every board the shuffle-retry loop of [initGame] returns passes
    [isSolvable], and some position in [0..15] holds a value that is not
    its own index; it is the board [initGame] installs. *)
Theorem shuffle_output_playable
    (random_index : nat → Z → Z) (fuel calls calls' : nat)
    (shuffled : Js.array) :
  (∀ k n, 0 < n → 0 ≤ random_index k n < n) →
  shuffleUntilPlayable random_index fuel (Js.range TOTAL_TILES) calls
  = Some (shuffled, calls') →
  isSolvable shuffled = true
  ∧ (∃ i, 0 ≤ i ≤ 15 ∧ Js.get shuffled i ≠ Js.Num i)
  ∧ (∀ s, randomCalls s = calls →
       ∃ s', initGame random_index fuel s = Some s' ∧ tiles s' = shuffled).
Proof.
  intros Hrange Hout.
  destruct (shuffleUntilPlayable_output random_index Hrange _ _ _ _ Hout)
    as ((l & Hl & Hb) & Hs & Hc).
  split; [done|]. split.
  - subst shuffled. apply every_from_false in Hc as (i & v & Hi & Hv).
    pose proof (lookup_lt_Some _ _ _ Hi) as Hlt.
    rewrite of_list_length, (board_length l Hb) in Hlt.
    exists (Z.of_nat i). split; [lia|].
    unfold Js.get. destruct (decide (Z.of_nat i < 0)) as [?|_]; [lia|].
    rewrite Nat2Z.id, Hi. intros ->. simpl in Hv.
    rewrite Z.eqb_refl in Hv. done.
  - intros s Hcalls. unfold initGame. rewrite Hcalls, Hout.
    eexists. split; [done|].
    by rewrite tiles_resetTimer.
Qed.

Lemma shuffle_output_playable_witness :
  isSolvable (Js.of_list almostSolved) = true
  ∧ (∃ i, 0 ≤ i ≤ 15 ∧ Js.get (Js.of_list almostSolved) i ≠ Js.Num i)
  ∧ (∀ s, randomCalls s = 0%nat →
       ∃ s', initGame demoRandom 1 s = Some s'
             ∧ tiles s' = Js.of_list almostSolved).
Proof.
  apply (shuffle_output_playable demoRandom 1 0 15 (Js.of_list almostSolved)).
  - apply demoRandom_range.
  - vm_compute. reflexivity.
Defined.

(** ** The retry loop *)

(** The loop only exits on a playable array. *)
Lemma shuffleUntilPlayable_exit
    (random_index : nat → Z → Z) (original : Js.array)
    (fuel calls calls' : nat) (shuffled : Js.array) :
  shuffleUntilPlayable random_index fuel original calls
  = Some (shuffled, calls') →
  playable shuffled = true.
Proof.
  revert calls. induction fuel as [|fuel IH]; intros calls; [done|].
  cbn [shuffleUntilPlayable].
  destruct (shuffleArray random_index original calls) as [a c].
  destruct (negb (isSolvable a) || Js.every _ a) eqn:Hexit; [apply IH|].
  intros [= <- <-]. unfold playable. by rewrite Hexit.
Qed.

Lemma playable_true (a : Js.array) :
  playable a = true ↔ isSolvable a = true ∧ isComplete a = false.
Proof.
  unfold playable, isComplete.
  rewrite negb_true_iff, orb_false_iff, negb_false_iff. done.
Qed.

(** More fuel does not change a result. *)
Lemma shuffleUntilPlayable_more_fuel
    (random_index : nat → Z → Z) (original : Js.array)
    (fuel extra calls : nat) (r : Js.array * nat) :
  shuffleUntilPlayable random_index fuel original calls = Some r →
  shuffleUntilPlayable random_index (fuel + extra) original calls = Some r.
Proof.
  revert calls. induction fuel as [|fuel IH]; intros calls; [done|].
  cbn [shuffleUntilPlayable Nat.add].
  destruct (shuffleArray random_index original calls) as [a c].
  destruct (negb (isSolvable a) || Js.every _ a); [apply IH | done].
Qed.

(** The loop returns as soon as the draws produce a playable shuffle:
    if the attempt number [k] is playable, [k + 1] iterations are enough. *)
Lemma shuffleUntilPlayable_returns
    (random_index : nat → Z → Z) (calls k : nat) :
  (∀ k n, 0 < n → 0 ≤ random_index k n < n) →
  playable (attempt random_index calls k) = true →
  ∃ r, shuffleUntilPlayable random_index (S k) (Js.range TOTAL_TILES) calls
       = Some r.
Proof.
  intros Hrange. revert calls.
  induction k as [|k IH]; intros calls Hk; unfold attempt in Hk.
  - rewrite Nat.mul_0_r, Nat.add_0_r in Hk. cbn [shuffleUntilPlayable].
    destruct (shuffleArray _ _ calls) as [a c]. simpl in Hk.
    unfold playable in Hk. apply negb_true_iff in Hk. rewrite Hk. eauto.
  - change (shuffleUntilPlayable random_index (S (S k)) ?o ?c)
      with (let '(shuffled, calls') := shuffleArray random_index o c in
            if negb (isSolvable shuffled)
               || Js.every (λ val idx, Js.strict_eq val idx) shuffled
            then shuffleUntilPlayable random_index (S k) o calls'
            else Some (shuffled, calls')).
    destruct (shuffleArray_board random_index Hrange calls) as (l & -> & _).
    destruct (negb _ || _); [|eauto].
    apply IH. unfold attempt.
    by replace (calls + 15 + 15 * k)%nat with (calls + 15 * S k)%nat by lia.
Qed.

(** Without such a shuffle the loop never exits: when every draw picks
    the last index each shuffle is the solved board, and no amount of fuel
    gives a result. *)
Lemma shuffleUntilPlayable_may_diverge (fuel calls : nat) :
  shuffleUntilPlayable lastIndexRandom fuel (Js.range TOTAL_TILES) calls
  = None.
Proof.
  revert calls. induction fuel as [|fuel IH]; intros calls; [done|].
  cbn [shuffleUntilPlayable].
  assert (shuffleArray lastIndexRandom (Js.range TOTAL_TILES) calls
          = (Js.range TOTAL_TILES,
             (15 + calls)%nat))
    as -> by (vm_compute; reflexivity).
  assert (isSolvable (Js.range TOTAL_TILES) = true) as -> by reflexivity.
  assert (Js.every (λ val idx, Js.strict_eq val idx) (Js.range TOTAL_TILES)
          = true) as -> by reflexivity.
  apply IH.
Qed.

(** ** The timer *)

Lemma stopTimer_fields (s : state) :
  isTimerRunning (stopTimer s) = false
  ∧ elapsedTime (stopTimer s) = elapsedTime s
  ∧ hasStarted (stopTimer s) = hasStarted s
  ∧ tiles (stopTimer s) = tiles s
  ∧ timerInterval (stopTimer s) = None
  ∧ randomCalls (stopTimer s) = randomCalls s
  ∧ watchedComplete (stopTimer s) = watchedComplete s.
Proof. destruct s as [? ? ? ? [?|] ? ? ? ?]; repeat split. Qed.

Lemma resetTimer_fields (s : state) :
  elapsedTime (resetTimer s) = 0
  ∧ isTimerRunning (resetTimer s) = false
  ∧ hasStarted (resetTimer s) = false
  ∧ tiles (resetTimer s) = tiles s
  ∧ watchedComplete (resetTimer s) = watchedComplete s.
Proof. destruct s as [? ? ? ? [?|] ? ? ? ?]; repeat split. Qed.

Lemma startTimer_fields (s : state) :
  elapsedTime (startTimer s) = elapsedTime s
  ∧ watchedComplete (startTimer s) = watchedComplete s
  ∧ isTimerRunning (startTimer s) = true
  ∧ (isTimerRunning s = false → hasStarted (startTimer s) = true)
  ∧ (isTimerRunning s = true → startTimer s = s).
Proof. destruct s as [? ? [] ? ? ? ? ? ?]; repeat split; done. Qed.

Lemma startTimer_running (s : state) :
  isTimerRunning s = true → startTimer s = s.
Proof. intros H. by apply (startTimer_fields s). Qed.

Lemma startTimer_stopped (s : state) :
  isTimerRunning s = false → hasStarted (startTimer s) = true.
Proof. intros H. by apply (startTimer_fields s). Qed.

Lemma initGame_Some (random_index : nat → Z → Z) (fuel : nat) (s s' : state) :
  initGame random_index fuel s = Some s' →
  ∃ shuffled calls,
    shuffleUntilPlayable random_index fuel (Js.range TOTAL_TILES)
      (randomCalls s) = Some (shuffled, calls)
    ∧ s' = resetTimer (with_tiles shuffled (with_randomCalls calls s)).
Proof.
  unfold initGame.
  destruct (shuffleUntilPlayable _ _ _ _) as [[a c]|]; [|done].
  intros [= <-]. eauto.
Qed.

(** The watcher job after a new game: the board is not complete, so the
    callback, if called at all, stops nothing. *)
Lemma flushWatch_not_complete (s : state) :
  isComplete (tiles s) = false →
  flushWatch s = with_watchedComplete false s.
Proof.
  unfold flushWatch, onCompleteChange. intros ->.
  destruct s as [? ? ? ? ? ? ? ? []]; reflexivity.
Qed.

(** C7. Whatever the session state before, [initGame] returns as soon as
    the draws produce a playable shuffle, and whenever it returns the
    elapsed time is 0, the timer is not running, the session is not
    started, and the board is unsolved and passes [isSolvable]; the watcher
    job that follows changes none of this. *)
Theorem new_game_resets_session
    (random_index : nat → Z → Z) (s : state) (k : nat) :
  (∀ k n, 0 < n → 0 ≤ random_index k n < n) →
  playable (attempt random_index (randomCalls s) k) = true →
  (∃ s', initGame random_index (S k) s = Some s')
  ∧ ∀ fuel s',
      initGame random_index fuel s = Some s' →
      (elapsedTime s' = 0 ∧ isTimerRunning s' = false
       ∧ hasStarted s' = false
       ∧ isComplete (tiles s') = false ∧ isSolvable (tiles s') = true)
      ∧ (elapsedTime (flushWatch s') = 0
         ∧ isTimerRunning (flushWatch s') = false
         ∧ hasStarted (flushWatch s') = false
         ∧ isComplete (tiles (flushWatch s')) = false
         ∧ isSolvable (tiles (flushWatch s')) = true).
Proof.
  intros Hrange Hk. split.
  - destruct (shuffleUntilPlayable_returns random_index (randomCalls s) k
                Hrange Hk) as [[a c] Hloop].
    unfold initGame. rewrite Hloop. eauto.
  - intros fuel s' (a & c & Hloop & ->)%initGame_Some.
    apply shuffleUntilPlayable_exit, playable_true in Hloop as [Hs Hc].
    set (s0 := with_tiles a (with_randomCalls c s)).
    destruct (resetTimer_fields s0) as (He & Hr & Hst & Ht & _).
    assert (tiles (resetTimer s0) = a) as Ha by by rewrite Ht.
    assert (isComplete (tiles (resetTimer s0)) = false) as Hc'
      by by rewrite Ha.
    assert (elapsedTime (resetTimer s0) = 0
            ∧ isTimerRunning (resetTimer s0) = false
            ∧ hasStarted (resetTimer s0) = false
            ∧ isComplete (tiles (resetTimer s0)) = false
            ∧ isSolvable (tiles (resetTimer s0)) = true) as Hfields
      by by rewrite Ha.
    split; [exact Hfields|].
    rewrite (flushWatch_not_complete _ Hc'). exact Hfields.
Qed.

Lemma new_game_resets_session_witness :
  (∃ s', initGame demoRandom 1 setup = Some s')
  ∧ ∀ fuel s',
      initGame demoRandom fuel setup = Some s' →
      (elapsedTime s' = 0 ∧ isTimerRunning s' = false
       ∧ hasStarted s' = false
       ∧ isComplete (tiles s') = false ∧ isSolvable (tiles s') = true)
      ∧ (elapsedTime (flushWatch s') = 0
         ∧ isTimerRunning (flushWatch s') = false
         ∧ hasStarted (flushWatch s') = false
         ∧ isComplete (tiles (flushWatch s')) = false
         ∧ isSolvable (tiles (flushWatch s')) = true).
Proof.
  apply (new_game_resets_session demoRandom setup 0).
  - apply demoRandom_range.
  - vm_compute. reflexivity.
Defined.

(** The first game dealt with [demoRandom] is [firstGame]. *)
Example initGame_demoRandom : initGame demoRandom 1 setup = Some firstGame.
Proof. vm_compute. reflexivity. Qed.

(** A complete board takes no move, whatever the position. *)
Lemma complete_board_rejects (index : Z) (s : state) :
  isComplete (tiles s) = true →
  moveApplied index s = false ∧ handleTileClick index s = s.
Proof.
  intros Hc. unfold moveApplied, handleTileClick. by rewrite Hc.
Qed.

(** ** The board invariant *)

Lemma handleTileClick_holdsBoard (s : state) (p : Z) :
  holdsBoard (tiles s) → 0 ≤ p ≤ 15 →
  holdsBoard (tiles (handleTileClick p s)).
Proof.
  intros (l & Ht & Hb) Hp.
  destruct (moveApplied p s) eqn:Happ.
  - destruct (board_has_empty l Hb) as [e He].
    destruct (handleTileClick_board s l p e Ht Hb He Hp Happ)
      as (v & Hv & ->).
    eexists. split; [done|]. by apply board_insert_swap.
  - rewrite (handleTileClick_rejected p s Happ). by exists l.
Qed.

(** C6. The board invariant (a permutation of the labels [0..15], exactly
    one of them the empty-slot label) holds of every board [initGame]
    installs, and a move request for a position in [0..15], applied or
    rejected, keeps it. *)
Theorem board_invariant_kept
    (random_index : nat → Z → Z) (fuel : nat) (s s' s0 : state) (p : Z) :
  (∀ k n, 0 < n → 0 ≤ random_index k n < n) →
  initGame random_index fuel s = Some s' →
  boardInvariant (tiles s0) → 0 ≤ p ≤ 15 →
  boardInvariant (tiles s')
  ∧ boardInvariant (tiles (handleTileClick p s0)).
Proof.
  intros Hrange (a & c & Hloop & ->)%initGame_Some Hinv Hp.
  rewrite <- !holdsBoard_invariant in *. split.
  - destruct (resetTimer_fields (with_tiles a (with_randomCalls c s)))
      as (_ & _ & _ & -> & _).
    by destruct (shuffleUntilPlayable_output _ Hrange _ _ _ _ Hloop).
  - by apply handleTileClick_holdsBoard.
Qed.

Lemma board_invariant_kept_witness :
  boardInvariant (tiles firstGame)
  ∧ boardInvariant (tiles (handleTileClick 10 firstGame)).
Proof.
  apply (board_invariant_kept demoRandom 1 setup firstGame firstGame 10).
  - apply demoRandom_range.
  - vm_compute. reflexivity.
  - apply holdsBoard_invariant. exists almostSolved. split; [reflexivity|].
    apply boardb_sound. vm_compute. reflexivity.
  - lia.
Defined.

(** ** Completion stops the timer *)

Lemma handleTileClick_running (s : state) (p : Z) :
  isTimerRunning s = true → moveApplied p s = true →
  handleTileClick p s
  = with_tiles (Js.swap (Js.spread (tiles s)) p (findEmptyIndex (tiles s))) s.
Proof.
  unfold moveApplied, handleTileClick. intros Hr.
  destruct (isComplete (tiles s)); [done|].
  destruct (isAdjacent (tiles s) p); [|done]. intros _.
  rewrite (startTimer_running s Hr). by destruct (negb (hasStarted s)).
Qed.

(** C8. With the timer running, an applied move that leaves the board
    complete stops the timer once the watcher job has run: the running
    flag becomes false (it is still true when the handler returns) and the
    interval is cleared, while the elapsed time, the started flag and the
    board the move produced are as they were.  The watcher is assumed up
    to date, as it is between the events of every session. *)
Theorem solving_move_stops_timer (s : state) (p : Z) :
  isTimerRunning s = true →
  watchedComplete s = isComplete (tiles s) →
  moveApplied p s = true →
  isComplete (tiles (handleTileClick p s)) = true →
  isTimerRunning (handleTileClick p s) = true
  ∧ isTimerRunning (flushWatch (handleTileClick p s)) = false
  ∧ elapsedTime (flushWatch (handleTileClick p s)) = elapsedTime s
  ∧ hasStarted (flushWatch (handleTileClick p s)) = hasStarted s
  ∧ tiles (flushWatch (handleTileClick p s)) = tiles (handleTileClick p s)
  ∧ randomCalls (flushWatch (handleTileClick p s)) = randomCalls s
  ∧ timerInterval (flushWatch (handleTileClick p s)) = None.
Proof.
  intros Hr Hw Happ. rewrite (handleTileClick_running s p Hr Happ).
  set (t := Js.swap _ _ _). intros Hc.
  change (tiles (with_tiles t s)) with t in Hc.
  assert (isComplete (tiles s) = false) as Hc0.
  { unfold moveApplied in Happ. by destruct (isComplete (tiles s)). }
  rewrite Hc0 in Hw.
  assert (flushWatch (with_tiles t s)
          = stopTimer (with_watchedComplete true (with_tiles t s))) as ->.
  { unfold flushWatch, onCompleteChange.
    change (tiles (with_tiles t s)) with t.
    change (watchedComplete (with_tiles t s)) with (watchedComplete s).
    rewrite Hc, Hw. simpl. by rewrite Hr. }
  destruct (stopTimer_fields (with_watchedComplete true (with_tiles t s)))
    as (-> & -> & -> & -> & -> & -> & _).
  done.
Qed.

Lemma solving_move_stops_timer_witness :
  isTimerRunning (handleTileClick 15 (runningSession almostSolved)) = true
  ∧ isTimerRunning
      (flushWatch (handleTileClick 15 (runningSession almostSolved))) = false
  ∧ elapsedTime
      (flushWatch (handleTileClick 15 (runningSession almostSolved)))
    = elapsedTime (runningSession almostSolved)
  ∧ hasStarted
      (flushWatch (handleTileClick 15 (runningSession almostSolved)))
    = hasStarted (runningSession almostSolved)
  ∧ tiles (flushWatch (handleTileClick 15 (runningSession almostSolved)))
    = tiles (handleTileClick 15 (runningSession almostSolved))
  ∧ randomCalls
      (flushWatch (handleTileClick 15 (runningSession almostSolved)))
    = randomCalls (runningSession almostSolved)
  ∧ timerInterval
      (flushWatch (handleTileClick 15 (runningSession almostSolved)))
    = None.
Proof.
  apply (solving_move_stops_timer (runningSession almostSolved) 15);
    vm_compute; reflexivity.
Defined.

(** ** Running implies started *)

Lemma flushWatch_flags (s : state) :
  hasStarted (flushWatch s) = hasStarted s
  ∧ (isTimerRunning (flushWatch s) = true → isTimerRunning s = true).
Proof.
  unfold flushWatch, onCompleteChange.
  destruct (eqb _ _); [done|].
  destruct (isComplete (tiles s) && _); [|done].
  destruct (stopTimer_fields (with_watchedComplete (isComplete (tiles s)) s))
    as (-> & _ & -> & _).
  done.
Qed.

Lemma handleTileClick_started (index : Z) (s : state) :
  (isTimerRunning s = true → hasStarted s = true) →
  isTimerRunning (handleTileClick index s) = true →
  hasStarted (handleTileClick index s) = true.
Proof.
  unfold handleTileClick. intros Hinv.
  destruct (isComplete (tiles s)); [done|].
  destruct (isAdjacent (tiles s) index); [|done].
  destruct (hasStarted s) eqn:Hst; simpl; [done|].
  destruct (isTimerRunning s) eqn:Hr; [by specialize (Hinv eq_refl)|].
  intros _. by apply startTimer_stopped.
Qed.

Lemma handle_started
    (random_index : nat → Z → Z) (e : event) (s s' : state) :
  handle random_index e s = Some s' →
  (isTimerRunning s = true → hasStarted s = true) →
  isTimerRunning s' = true → hasStarted s' = true.
Proof.
  destruct e as [index|id|fuel|]; simpl.
  - intros [= <-]. apply handleTileClick_started.
  - destruct (decide _); by intros [= <-].
  - intros (a & c & _ & ->)%initGame_Some _.
    destruct (resetTimer_fields (with_tiles a (with_randomCalls c s)))
      as (_ & -> & _). done.
  - intros [= <-] _.
    by destruct (stopTimer_fields s) as (-> & _).
Qed.

(** C9. In every state reachable from [setup] by clicks, interval ticks,
    new games and the unmount, a running timer means a started session. *)
Theorem running_implies_started
    (random_index : nat → Z → Z) (s : state) :
  reachable random_index s →
  isTimerRunning s = true → hasStarted s = true.
Proof.
  induction 1 as [|e s s' _ IH Hstep]; [done|].
  unfold step in Hstep.
  destruct (handle random_index e s) as [s1|] eqn:Hh; [|done].
  simpl in Hstep. injection Hstep as <-.
  destruct (flushWatch_flags s1) as [-> Hrun].
  intros Hr%Hrun. by apply (handle_started random_index e s s1).
Qed.

Lemma midGame_reachable : reachable demoRandom midGame.
Proof.
  apply (reachable_step demoRandom (Click 10) firstGameWatched).
  - apply (reachable_step demoRandom (NewGame 1) setup).
    + apply reachable_setup.
    + vm_compute. reflexivity.
  - vm_compute. reflexivity.
Qed.

Lemma running_implies_started_witness :
  reachable demoRandom midGame ∧ hasStarted midGame = true.
Proof.
  split; [apply midGame_reachable|].
  apply (running_implies_started demoRandom midGame).
  - apply midGame_reachable.
  - reflexivity.
Defined.

(** ** What holds between events *)

Lemma stopTimer_invariant (s : state) :
  activeIntervals s
  = match timerInterval s with Some id => [id] | None => [] end →
  activeIntervals (stopTimer s) = [].
Proof.
  destruct s as [? ? ? ? [id|] ai ? ? ?]; simpl; intros ->; [|done].
  unfold base.filter. simpl. by destruct (decide_rel _ _ _).
Qed.

Lemma flushWatch_up_to_date (s : state) :
  watchedComplete (flushWatch s) = isComplete (tiles (flushWatch s)).
Proof.
  rewrite tiles_flushWatch. unfold flushWatch, onCompleteChange.
  destruct (eqb _ _) eqn:Heq; [symmetry; by apply eqb_prop|].
  destruct (isComplete (tiles s) && _); [|done].
  by destruct (stopTimer_fields (with_watchedComplete (isComplete (tiles s)) s))
    as (_ & _ & _ & _ & _ & _ & ->).
Qed.

(** ** The solvability check *)

Lemma filter_of_list (l : list Z) :
  Js.filter (λ x, Js.strict_ne x EMPTY_TILE) (Js.of_list l)
  = Js.of_list (Spec.labels l).
Proof.
  induction l as [|a l IH]; [done|].
  cbn [Js.of_list fmap list_fmap Js.filter Spec.labels List.filter].
  fold (Js.of_list l). rewrite IH.
  unfold Js.strict_ne, Js.strict_eq. change EMPTY_TILE with 15.
  by destruct (a =? 15).
Qed.

Lemma seqZ_of_nat (a b : nat) :
  seqZ (Z.of_nat a) (Z.of_nat b) = Z.of_nat <$> seq a b.
Proof.
  apply list_eq. intros k. rewrite list_lookup_fmap.
  destruct (decide (k < b)%nat) as [Hk|Hk].
  - rewrite lookup_seqZ_lt, lookup_seq_lt by lia. simpl. f_equal. lia.
  - rewrite lookup_seqZ_ge, lookup_seq_ge by lia. done.
Qed.

Lemma filter_none {A : Type} (P : A → bool) (l : list A) :
  (∀ x, In x l → P x = false) → List.filter P l = [].
Proof.
  induction l as [|a l IH]; intros H; [done|]. simpl.
  rewrite (H a) by by left. apply IH. intros x Hx. apply H. by right.
Qed.

Section Inversions.

Variable ls : list Z.

Lemma get_labels (i : nat) :
  (i < length ls)%nat →
  Js.get (Js.of_list ls) (Z.of_nat i) = Js.Num (nth i ls 0).
Proof.
  intros Hi. destruct (lookup_lt_is_Some_2 ls i Hi) as [z Hz].
  rewrite (get_of_list_Some ls i z Hz). f_equal.
  by rewrite nth_lookup, Hz.
Qed.

(** The inner loop adds the number of later positions with a smaller
    label. *)
Lemma inner_loop_count (i : nat) (js : list nat) (inversions : Z) :
  (i < length ls)%nat → Forall (λ j, (j < length ls)%nat) js →
  fold_left
    (λ inversions j,
       if Js.gt (Js.get (Js.of_list ls) (Z.of_nat i))
                (Js.get (Js.of_list ls) j)
       then inversions + 1 else inversions)
    (Z.of_nat <$> js) inversions
  = inversions
    + Z.of_nat (length (List.filter (λ j, nth j ls 0 <? nth i ls 0) js)).
Proof.
  intros Hi Hjs. revert inversions.
  induction Hjs as [|j js Hj _ IH]; intros inversions; simpl; [lia|].
  rewrite IH, (get_labels i Hi), (get_labels j Hj). simpl.
  destruct (nth j ls 0 <? nth i ls 0); simpl; lia.
Qed.

(** The outer loop adds up the counts of the inner loop. *)
Lemma outer_loop_count (idxs : list nat) (inversions : Z) :
  Forall (λ i, (i < length ls)%nat) idxs →
  fold_left
    (λ inversions i,
       fold_left
         (λ inversions j,
            if Js.gt (Js.get (Js.of_list ls) i) (Js.get (Js.of_list ls) j)
            then inversions + 1 else inversions)
         (seqZ (i + 1) (Js.length (Js.of_list ls) - (i + 1))) inversions)
    (Z.of_nat <$> idxs) inversions
  = inversions + Z.of_nat (sum_list (inversionsFrom ls <$> idxs)).
Proof.
  intros Hidxs. revert inversions.
  induction Hidxs as [|i idxs Hi _ IH]; intros inversions; simpl; [lia|].
  rewrite IH. unfold Js.length. rewrite of_list_length.
  replace (Z.of_nat i + 1) with (Z.of_nat (S i)) by lia.
  replace (Z.of_nat (length ls) - Z.of_nat (S i))
    with (Z.of_nat (length ls - S i)) by lia.
  rewrite seqZ_of_nat, (inner_loop_count i _ _ Hi).
  - unfold inversionsFrom, fmap. lia.
  - apply Forall_forall. intros j Hj%in_seq. lia.
Qed.

Lemma countInversions_sum :
  countInversions (Js.of_list ls)
  = Z.of_nat (sum_list (inversionsFrom ls <$> seq 0 (length ls))).
Proof.
  unfold countInversions. cbv zeta.
  replace (seqZ 0 (Js.length (Js.of_list ls)))
    with (Z.of_nat <$> seq 0 (length ls)).
  - rewrite outer_loop_count; [lia|].
    apply Forall_forall. intros j Hj%in_seq. lia.
  - unfold Js.length. rewrite of_list_length.
    symmetry. apply (seqZ_of_nat 0).
Qed.

(** Counting the pairs of the product row by row. *)
Lemma filter_list_prod_length
    (P : nat * nat → bool) (xs ys : list nat) :
  length (List.filter P (list_prod xs ys))
  = sum_list ((λ x, length (List.filter (λ y, P (x, y)) ys)) <$> xs).
Proof.
  induction xs as [|x xs IH]; [done|].
  cbn [list_prod fmap list_fmap sum_list sum_list_with].
  rewrite List.filter_app, length_app, IH. f_equal.
  clear IH. induction ys as [|y ys IH]; [done|].
  simpl. destruct (P (x, y)); simpl; by rewrite IH.
Qed.

(** The pairs of a row with [i] before [j] are those with [j] after [i]. *)
Lemma row_count (i : nat) :
  (i < length ls)%nat →
  length (List.filter
            (λ j, (i <? j)%nat && (nth j ls 0 <? nth i ls 0))
            (seq 0 (length ls)))
  = inversionsFrom ls i.
Proof.
  intros Hi. unfold inversionsFrom.
  replace (length ls) with (S i + (length ls - S i))%nat at 1 by lia.
  rewrite seq_app, List.filter_app, length_app.
  replace (List.filter _ (seq 0 (S i))) with (@nil nat).
  - simpl. f_equal. apply List.filter_ext_in.
    intros j [Hj _]%in_seq. by apply Nat.ltb_lt in Hj as ->.
  - symmetry. apply filter_none. intros j [_ Hj]%in_seq.
    assert ((i <? j)%nat = false) as -> by (apply Nat.ltb_ge; lia). done.
Qed.

Lemma inversions_sum :
  Spec.inversions ls
  = Z.of_nat (sum_list (inversionsFrom ls <$> seq 0 (length ls))).
Proof.
  unfold Spec.inversions, Spec.inversionPairs.
  rewrite filter_list_prod_length. do 2 f_equal.
  apply list_fmap_ext. intros k i Hi. simpl.
  apply row_count. apply lookup_seq in Hi. lia.
Qed.

(** The nested loops count the inversions of the specification. *)
Lemma countInversions_spec :
  countInversions (Js.of_list ls) = Spec.inversions ls.
Proof. by rewrite countInversions_sum, inversions_sum. Qed.

End Inversions.

Lemma inversions_nonneg (ls : list Z) : 0 ≤ Spec.inversions ls.
Proof. unfold Spec.inversions. lia. Qed.

Lemma parity_test (x : Z) :
  0 ≤ x →
  (Z.rem x 2 =? 1) = Z.odd x ∧ (Z.rem x 2 =? 0) = Z.even x.
Proof.
  intros Hx. rewrite Z.rem_mod_nonneg, Zmod_odd, <- Z.negb_odd by lia.
  by destruct (Z.odd x).
Qed.

(** C2. On a permutation board with the empty slot at position [e],
    [isSolvable] answers true exactly when the parity rule holds: the
    empty row counted from the bottom, [4 - e / 4], is odd and the number
    of inversions among the fifteen tile labels is even, or that row is
    even and the number of inversions is odd. *)
Theorem isSolvable_parity_rule (l : list Z) (e : nat) :
  Spec.board l → l !! e = Some 15 →
  isSolvable (Js.of_list l) = true ↔ Spec.parityRule l (Z.of_nat e).
Proof.
  intros Hb He.
  pose proof (board_lookup_range l e 15 Hb He) as [_ Hlt].
  pose proof (findEmptyIndex_of_list l e (board_NoDup l Hb) He) as Hidx.
  unfold findEmptyIndex in Hidx.
  unfold isSolvable, Spec.parityRule, Spec.emptyRowFromBottom. cbv zeta.
  rewrite filter_of_list, countInversions_spec, Hidx.
  change GRID_SIZE with 4.
  pose proof (inversions_nonneg (Spec.labels l)) as Hinv.
  assert (0 ≤ 4 - Z.of_nat e / 4) as Hrow.
  { assert (Z.of_nat e / 4 < 4); [|lia].
    apply Z.div_lt_upper_bound; lia. }
  generalize dependent (Spec.inversions (Spec.labels l)).
  generalize dependent (4 - Z.of_nat e / 4).
  intros emptyRowFromBottom Hrow inversions Hinv.
  destruct (parity_test emptyRowFromBottom Hrow) as [-> _].
  destruct (parity_test inversions Hinv) as [-> ->].
  rewrite <- !Z.odd_spec, <- !Z.even_spec, <- !Z.negb_odd.
  destruct (Z.odd emptyRowFromBottom), (Z.odd inversions); simpl;
    (split; [intros ?; first [by left | by right]
            | intros [[? ?]|[? ?]]; done]).
Qed.

Lemma isSolvable_parity_rule_witness :
  isSolvable (Js.of_list almostSolved) = true
  ↔ Spec.parityRule almostSolved (Z.of_nat 14).
Proof.
  apply (isSolvable_parity_rule almostSolved 14).
  - apply boardb_sound. vm_compute. reflexivity.
  - reflexivity.
Defined.

Example isSolvable_solved : isSolvable (Js.range TOTAL_TILES) = true.
Proof. reflexivity. Qed.

Example isSolvable_swapped : isSolvable (Js.of_list swappedBoard) = false.
Proof. reflexivity. Qed.

Example isSolvable_almostSolved :
  isSolvable (Js.of_list almostSolved) = true.
Proof. reflexivity. Qed.

Example inversions_swapped :
  Spec.inversionPairs (Spec.labels swappedBoard) = [(0, 1)%nat].
Proof. reflexivity. Qed.

(** ** The session invariant *)

(** What the watcher job needs from the state a handler leaves. *)
Lemma flushWatch_sessionInvariant (s : state) :
  (isTimerRunning s = true ↔ is_Some (timerInterval s)) →
  activeIntervals s
  = match timerInterval s with Some id => [id] | None => [] end →
  (watchedComplete s = true → isComplete (tiles s) = true →
   isTimerRunning s = false) →
  sessionInvariant (flushWatch s).
Proof.
  destruct s as [t el r st ti ai ni rc w]. simpl. intros Hrun Hact Hdone.
  unfold sessionInvariant, flushWatch, onCompleteChange, stopTimer. simpl.
  destruct (isComplete t) eqn:Hc, w, r; simpl; rewrite ?Hc;
    try (split_and!; by auto).
  destruct ti as [id|]; simpl; rewrite ?Hc; subst ai.
  - unfold base.filter. simpl. destruct (decide_rel _ _ _); [done|].
    split_and!; try done; split; try done; by intros [? ?].
  - split_and!; try done; split; try done; by intros [? ?].
Qed.

Lemma sessionInvariant_setup : sessionInvariant setup.
Proof.
  unfold sessionInvariant, setup. simpl.
  repeat split; try done; by intros [? ?].
Qed.

Lemma handleTileClick_sessionInvariant (index : Z) (s : state) :
  sessionInvariant s → sessionInvariant (flushWatch (handleTileClick index s)).
Proof.
  intros (Hw & Hdone & Hrun & Hact).
  destruct (moveApplied index s) eqn:Happ.
  - assert (isComplete (tiles s) = false) as Hc.
    { unfold moveApplied in Happ. by destruct (isComplete (tiles s)). }
    unfold moveApplied in Happ. unfold handleTileClick.
    rewrite Hc in *. simpl in Happ. rewrite Happ.
    destruct s as [t el r st ti ai ni rc w]. simpl in *. subst w.
    destruct st; simpl.
    + by apply flushWatch_sessionInvariant.
    + unfold startTimer. simpl. destruct r; simpl.
      * by apply flushWatch_sessionInvariant.
      * destruct ti as [id|].
        { assert (false = true) by (apply Hrun; by eexists). done. }
        subst ai. apply flushWatch_sessionInvariant; simpl; done.
  - rewrite (handleTileClick_rejected index s Happ).
    by apply flushWatch_sessionInvariant.
Qed.

(** Every step of a session keeps the session invariant. *)
Lemma step_sessionInvariant
    (random_index : nat → Z → Z) (e : event) (s s' : state) :
  sessionInvariant s → step random_index e s = Some s' →
  sessionInvariant s'.
Proof.
  intros Hinv. unfold step.
  destruct (handle random_index e s) as [s1|] eqn:Hh; [|done].
  simpl. intros [= <-]. destruct e as [index|id|fuel|]; simpl in Hh.
  - injection Hh as <-. by apply handleTileClick_sessionInvariant.
  - destruct Hinv as (Hw & Hdone & Hrun & Hact).
    destruct (decide _); injection Hh as <-;
      apply flushWatch_sessionInvariant; try done; by intros _.
  - apply initGame_Some in Hh as (a & c & Hloop & ->).
    apply shuffleUntilPlayable_exit, playable_true in Hloop as [_ Hc].
    destruct Hinv as (_ & _ & _ & Hact).
    destruct s as [t el r st ti ai ni rc w]. simpl in *.
    apply flushWatch_sessionInvariant.
    + unfold resetTimer, stopTimer. simpl. destruct ti; simpl;
        (split; [done | by intros [? ?]]).
    + unfold resetTimer, stopTimer. simpl. destruct ti as [id|]; simpl.
      * subst ai. unfold base.filter. simpl.
        by destruct (decide_rel _ _ _).
      * done.
    + unfold resetTimer, stopTimer. simpl. destruct ti; simpl; congruence.
  - injection Hh as <-. destruct Hinv as (_ & _ & _ & Hact).
    destruct s as [t el r st ti ai ni rc w]. simpl in *.
    apply flushWatch_sessionInvariant.
    + unfold stopTimer. simpl. destruct ti; simpl;
        (split; [done | by intros [? ?]]).
    + unfold stopTimer. simpl. destruct ti as [id|]; simpl.
      * subst ai. unfold base.filter. simpl.
        by destruct (decide_rel _ _ _).
      * done.
    + unfold stopTimer. simpl. by destruct ti.
Qed.

(** Between events the watcher is up to date, a complete board has no
    running timer, and the only registered interval is the one in
    [timerInterval]. *)
Lemma reachable_sessionInvariant
    (random_index : nat → Z → Z) (s : state) :
  reachable random_index s → sessionInvariant s.
Proof.
  induction 1 as [|e s s' _ IH Hstep].
  - apply sessionInvariant_setup.
  - by apply (step_sessionInvariant random_index e s s').
Qed.

(** X6. Once the timer is stopped no interval is left: a tick changes
    nothing. *)
Lemma no_tick_after_stop
    (random_index : nat → Z → Z) (id : positive) (s s' : state) :
  reachable random_index s → isTimerRunning s = false →
  step random_index (Tick id) s = Some s' →
  elapsedTime s' = elapsedTime s.
Proof.
  intros (Hw & Hdone & Hrun & Hact)%reachable_sessionInvariant Hr.
  unfold step. simpl.
  destruct (timerInterval s) as [i|] eqn:Hti.
  { destruct Hrun as [_ Hrun]. rewrite Hrun in Hr; [done | by eexists]. }
  rewrite Hact. destruct (decide _) as [Hin|_]; [by inversion Hin|].
  simpl. intros [= <-].
  unfold flushWatch, onCompleteChange. rewrite Hw, eqb_reflx. done.
Qed.

(** ** The clock display *)

Lemma string_length_append (a b : String.string) :
  String.length (String.append a b)
  = (String.length a + String.length b)%nat.
Proof. induction a as [|c a IH]; simpl; [done | by rewrite IH]. Qed.

Lemma string_append_inj (a1 a2 b1 b2 : String.string) :
  String.length a1 = String.length a2 →
  String.append a1 b1 = String.append a2 b2 → a1 = a2 ∧ b1 = b2.
Proof.
  revert a2. induction a1 as [|c a1 IH]; intros [|c2 a2]; simpl; try done.
  intros [= Hlen] [= -> Happ]. by destruct (IH a2 Hlen Happ) as [-> ->].
Qed.

Lemma pretty_N_go_length (x : N) (s : String.string) :
  (String.length s ≤ String.length (pretty.pretty_N_go x s))%nat.
Proof.
  revert s. induction (N.lt_wf_0 x) as [x _ IH]; intros s.
  destruct (decide (x = 0)%N) as [->|Hx].
  - by rewrite pretty.pretty_N_go_0.
  - rewrite pretty.pretty_N_go_step by lia.
    etrans; [|apply IH; apply N.div_lt; lia]. simpl. lia.
Qed.

(** A number of at least two digits prints at least two characters, one
    of at least three digits at least three. *)
Lemma toString_length (n : Z) :
  (1 ≤ String.length (JsString.toString n))%nat
  ∧ (10 ≤ n → (2 ≤ String.length (JsString.toString n))%nat)
  ∧ (100 ≤ n → (3 ≤ String.length (JsString.toString n))%nat).
Proof.
  unfold JsString.toString, pretty.pretty, pretty.pretty_Z.
  destruct n as [|p|p]; simpl; [split; [done|]; split; intros; lia|..].
  - unfold pretty.pretty, pretty.pretty_positive, pretty.pretty,
      pretty.pretty_N.
    destruct (decide (N.pos p = 0)%N) as [?|_]; [done|].
    rewrite pretty.pretty_N_go_step by lia.
    split; [|split].
    + etrans; [|apply pretty_N_go_length]. simpl. lia.
    + intros Hp. rewrite pretty.pretty_N_go_step.
      * etrans; [|apply pretty_N_go_length]. simpl. lia.
      * apply N.div_str_pos. lia.
    + intros Hp. rewrite pretty.pretty_N_go_step.
      * rewrite pretty.pretty_N_go_step.
        -- etrans; [|apply pretty_N_go_length]. simpl. lia.
        -- rewrite N.Div0.div_div. apply N.div_str_pos. lia.
      * apply N.div_str_pos. lia.
  - split; [lia|]. split; intros; lia.
Qed.

Lemma formattedTime_elapsed (s : state) :
  formattedTime s = formattedTime (with_elapsedTime (elapsedTime s) setup).
Proof. reflexivity. Qed.

Lemma clockFace_check :
  forallb
    (λ t, String.eqb (formattedTime (with_elapsedTime t setup)) (clockFace t))
    (seqZ 0 6000) = true.
Proof. vm_compute. reflexivity. Qed.

(** X1. Below one hundred minutes the clock shows exactly [MM:SS]: two
    digits of minutes, a colon, two digits of seconds, zero-padded. *)
Theorem clock_shows_minutes_seconds (s : state) :
  0 ≤ elapsedTime s < 6000 →
  formattedTime s = clockFace (elapsedTime s).
Proof.
  intros Ht. rewrite formattedTime_elapsed.
  pose proof clockFace_check as Hall.
  rewrite forallb_forall in Hall.
  apply String.eqb_eq, Hall, list_elem_of_In, elem_of_seqZ. lia.
Qed.

Lemma clock_shows_minutes_seconds_witness :
  formattedTime (runningSession almostSolved)
  = clockFace (elapsedTime (runningSession almostSolved)).
Proof.
  apply (clock_shows_minutes_seconds (runningSession almostSolved)).
  simpl. lia.
Defined.

Example clock_at_42 :
  formattedTime (runningSession almostSolved) = "00:42"%string.
Proof. reflexivity. Qed.

Lemma twoDigits_check :
  forallb
    (λ n, String.eqb (JsString.padStart 2 "0"%string (JsString.toString n))
            (twoDigits n))
    (seqZ 0 100) = true.
Proof. vm_compute. reflexivity. Qed.

(** Padding to two characters: below one hundred the two digits, from
    one hundred on the number as it is. *)
Lemma padStart_two (n : Z) :
  0 ≤ n →
  JsString.padStart 2 "0"%string (JsString.toString n)
  = if decide (n < 100) then twoDigits n else JsString.toString n.
Proof.
  intros Hn. destruct (decide (n < 100)) as [Hlt|Hge].
  - pose proof twoDigits_check as Hall. rewrite forallb_forall in Hall.
    apply String.eqb_eq, Hall, list_elem_of_In, elem_of_seqZ. lia.
  - destruct (toString_length n) as (_ & _ & H3).
    unfold JsString.padStart.
    destruct (decide _) as [_|Hshort]; [done|]. specialize (H3 ltac:(lia)).
    lia.
Qed.

Lemma formattedTime_parts (s : state) :
  0 ≤ elapsedTime s →
  formattedTime s
  = String.append
      (JsString.padStart 2 "0"%string (JsString.toString (elapsedTime s / 60)))
      (String.String ":"%char (twoDigits (elapsedTime s `mod` 60))).
Proof.
  intros Ht. unfold formattedTime. cbv zeta.
  rewrite Z.rem_mod_nonneg by lia.
  rewrite (padStart_two (elapsedTime s `mod` 60)).
  - destruct (decide _) as [_|Hge]; [done|].
    pose proof (Z.mod_pos_bound (elapsedTime s) 60 ltac:(lia)). lia.
  - apply Z.mod_pos_bound. lia.
Qed.

(** X2. From one hundred minutes on nothing is cut off: the minutes are
    printed in full, so the clock is longer than five characters. *)
Theorem clock_past_99_minutes (s : state) :
  6000 ≤ elapsedTime s →
  formattedTime s
  = String.append (JsString.toString (elapsedTime s / 60))
      (String.String ":"%char (twoDigits (elapsedTime s `mod` 60)))
  ∧ (6 ≤ String.length (formattedTime s))%nat.
Proof.
  intros Ht. rewrite formattedTime_parts by lia.
  assert (100 ≤ elapsedTime s / 60) as Hm
    by (apply Z.div_le_lower_bound; lia).
  rewrite padStart_two by lia.
  destruct (decide _) as [?|_]; [lia|]. split; [done|].
  destruct (toString_length (elapsedTime s / 60)) as (_ & _ & H3).
  specialize (H3 Hm). rewrite string_length_append. simpl. lia.
Qed.

Lemma clock_past_99_minutes_witness :
  formattedTime (with_elapsedTime 6005 setup)
  = String.append (JsString.toString (6005 / 60))
      (String.String ":"%char (twoDigits (6005 `mod` 60)))
  ∧ (6 ≤ String.length (formattedTime (with_elapsedTime 6005 setup)))%nat.
Proof.
  apply (clock_past_99_minutes (with_elapsedTime 6005 setup)).
  simpl. lia.
Defined.

Lemma twoDigits_inj_check :
  forallb
    (λ a, forallb
            (λ b, implb (String.eqb (twoDigits a) (twoDigits b)) (a =? b))
            (seqZ 0 100))
    (seqZ 0 100) = true.
Proof. vm_compute. reflexivity. Qed.

Lemma twoDigits_inj (a b : Z) :
  0 ≤ a < 100 → 0 ≤ b < 100 → twoDigits a = twoDigits b → a = b.
Proof.
  intros Ha Hb Heq. pose proof twoDigits_inj_check as Hall.
  rewrite forallb_forall in Hall.
  specialize (Hall a). rewrite forallb_forall in Hall.
  specialize (Hall ltac:(apply list_elem_of_In, elem_of_seqZ; lia) b
                   ltac:(apply list_elem_of_In, elem_of_seqZ; lia)).
  rewrite Heq, String.eqb_refl in Hall. simpl in Hall.
  by apply Z.eqb_eq.
Qed.

Lemma padStart_two_length (n : Z) :
  0 ≤ n →
  (2 ≤ String.length (JsString.padStart 2 "0"%string (JsString.toString n)))%nat
  ∧ (String.length (JsString.padStart 2 "0"%string (JsString.toString n)) = 2%nat
     → n < 100).
Proof.
  intros Hn. rewrite padStart_two by done.
  destruct (decide (n < 100)) as [Hlt|Hge]; [done|].
  destruct (toString_length n) as (_ & _ & H3). specialize (H3 ltac:(lia)).
  lia.
Qed.

Lemma padStart_two_inj (a b : Z) :
  0 ≤ a → 0 ≤ b →
  JsString.padStart 2 "0"%string (JsString.toString a)
  = JsString.padStart 2 "0"%string (JsString.toString b) →
  a = b.
Proof.
  intros Ha Hb Heq.
  destruct (padStart_two_length a Ha) as [_ Hla].
  destruct (padStart_two_length b Hb) as [_ Hlb].
  rewrite (padStart_two a Ha), (padStart_two b Hb) in *.
  destruct (decide (a < 100)), (decide (b < 100)).
  - by apply twoDigits_inj.
  - rewrite <- Heq in Hlb. specialize (Hlb eq_refl). lia.
  - rewrite Heq in Hla. specialize (Hla eq_refl). lia.
  - by apply (inj pretty.pretty).
Qed.

(** X3. The clock never shows the same text for two different elapsed
    times. *)
Theorem clock_is_unambiguous (s1 s2 : state) :
  0 ≤ elapsedTime s1 → 0 ≤ elapsedTime s2 →
  formattedTime s1 = formattedTime s2 →
  elapsedTime s1 = elapsedTime s2.
Proof.
  intros H1 H2. rewrite !formattedTime_parts by done. intros Heq.
  set (t1 := elapsedTime s1) in *. set (t2 := elapsedTime s2) in *.
  assert (0 ≤ t1 / 60 ∧ 0 ≤ t2 / 60) as [Hm1 Hm2]
    by (split; apply Z.div_pos; lia).
  pose proof (Z.mod_pos_bound t1 60 ltac:(lia)) as Hs1.
  pose proof (Z.mod_pos_bound t2 60 ltac:(lia)) as Hs2.
  apply string_append_inj in Heq as [Hm Hs].
  - apply padStart_two_inj in Hm; [|done..].
    assert (twoDigits (t1 `mod` 60) = twoDigits (t2 `mod` 60)) as Hs'
      by (unfold twoDigits in *; congruence).
    apply twoDigits_inj in Hs'; [|lia..]. rename Hs' into Hsec.
    rewrite (Z.div_mod t1 60), (Z.div_mod t2 60) by lia.
    by rewrite Hm, Hsec.
  - apply (f_equal String.length) in Heq.
    rewrite !string_length_append in Heq. simpl in Heq. lia.
Qed.

Lemma clock_is_unambiguous_witness :
  elapsedTime (runningSession almostSolved)
  = elapsedTime (runningSession swappedBoard).
Proof.
  apply (clock_is_unambiguous
           (runningSession almostSolved) (runningSession swappedBoard)).
  - simpl. lia.
  - simpl. lia.
  - reflexivity.
Defined.

(** ** The clock between events *)

Lemma flushWatch_clock (s : state) :
  elapsedTime (flushWatch s) = elapsedTime s.
Proof.
  unfold flushWatch, onCompleteChange.
  destruct (eqb _ _); [done|].
  destruct (isComplete (tiles s) && _); [|done].
  by destruct (stopTimer_fields (with_watchedComplete (isComplete (tiles s)) s))
    as (_ & -> & _).
Qed.

(** A click never touches the elapsed time, and never clears the started
    flag. *)
Lemma handleTileClick_clock (index : Z) (s : state) :
  elapsedTime (handleTileClick index s) = elapsedTime s
  ∧ (hasStarted s = true → hasStarted (handleTileClick index s) = true).
Proof.
  unfold handleTileClick.
  destruct (isComplete (tiles s)); [done|].
  destruct (isAdjacent (tiles s) index); [|done].
  destruct (hasStarted s) eqn:Hst; simpl; rewrite ?Hst; [done|].
  split; [|done]. by destruct (startTimer_fields s) as (-> & _).
Qed.

Lemma step_clockInvariant
    (random_index : nat → Z → Z) (e : event) (s s' : state) :
  clockInvariant s → step random_index e s = Some s' → clockInvariant s'.
Proof.
  intros (Hsess & Hrun & Hzero & Hpos) Hstep.
  split; [by apply (step_sessionInvariant random_index e s s')|].
  unfold step in Hstep.
  destruct (handle random_index e s) as [s1|] eqn:Hh; [|done].
  simpl in Hstep. injection Hstep as <-.
  destruct (flushWatch_flags s1) as [Hst Hr].
  rewrite Hst, flushWatch_clock.
  split; [intros Hr1%Hr; by apply (handle_started random_index e s s1)|].
  destruct e as [index|id|fuel|]; simpl in Hh.
  - injection Hh as <-.
    destruct (handleTileClick_clock index s) as [-> Hkeep].
    split; [|done]. intros Hst1. apply Hzero.
    destruct (hasStarted s); [|done]. by rewrite Hkeep in Hst1.
  - destruct (decide (id ∈ activeIntervals s)) as [Hin|_];
      injection Hh as <-; [|done].
    simpl. split; [|lia]. intros Hst1. exfalso.
    destruct Hsess as (_ & _ & Hiff & Hact).
    destruct (timerInterval s) as [i|] eqn:Hti.
    + destruct Hiff as [_ Hiff].
      specialize (Hrun (Hiff ltac:(by eexists))). congruence.
    + rewrite Hact in Hin. by inversion Hin.
  - apply initGame_Some in Hh as (a & c & _ & ->).
    destruct (resetTimer_fields (with_tiles a (with_randomCalls c s)))
      as (-> & _). done.
  - injection Hh as <-.
    by destruct (stopTimer_fields s) as (_ & -> & -> & _).
Qed.

Lemma reachable_clockInvariant
    (random_index : nat → Z → Z) (s : state) :
  reachable random_index s → clockInvariant s.
Proof.
  induction 1 as [|e s s' _ IH Hstep].
  - split; [apply sessionInvariant_setup|]. done.
  - by apply (step_clockInvariant random_index e s s').
Qed.

(** X4. Between the events of a session a complete board never has a
    running timer. *)
Theorem complete_board_has_stopped_timer
    (random_index : nat → Z → Z) (s : state) :
  reachable random_index s →
  isComplete (tiles s) = true → isTimerRunning s = false.
Proof.
  intros (_ & Hdone & _)%reachable_sessionInvariant. exact Hdone.
Qed.

(** X5. No interval is ever leaked: a stopped timer leaves no interval
    registered, a running timer exactly one, the one kept in
    [timerInterval]. *)
Theorem one_interval_at_most (random_index : nat → Z → Z) (s : state) :
  reachable random_index s →
  (isTimerRunning s = false →
   timerInterval s = None ∧ activeIntervals s = [])
  ∧ (isTimerRunning s = true →
     ∃ id, timerInterval s = Some id ∧ activeIntervals s = [id]).
Proof.
  intros (_ & _ & Hiff & Hact)%reachable_sessionInvariant.
  destruct (timerInterval s) as [id|] eqn:Hti.
  - destruct Hiff as [_ Hiff]. specialize (Hiff ltac:(by eexists)).
    split; [congruence | eauto].
  - split; [done|]. intros Hr. destruct Hiff as [Hiff _].
    by destruct (Hiff Hr).
Qed.

(** X7. While the timer runs and the counter is below 2^53 (up to there
    the increment of the JavaScript number is exact), a tick of its
    interval adds exactly one second and changes nothing else. *)
Theorem tick_adds_one_second
    (random_index : nat → Z → Z) (s : state) (id : positive) :
  reachable random_index s → timerInterval s = Some id →
  elapsedTime s < 2 ^ 53 →
  step random_index (Tick id) s
  = Some (with_elapsedTime (elapsedTime s + 1) s).
Proof.
  intros (Hw & _ & _ & Hact)%reachable_sessionInvariant Hti _.
  unfold step. simpl. rewrite Hact, Hti.
  destruct (decide _) as [_|Hnin]; [|by destruct Hnin; left].
  simpl. f_equal. unfold flushWatch, intervalCallback. simpl.
  by rewrite Hw, eqb_reflx.
Qed.

(** X8. Until the first applied move of a game the timer does not run
    and the clock shows 00:00. *)
Theorem clock_waits_for_first_move
    (random_index : nat → Z → Z) (s : state) :
  reachable random_index s → hasStarted s = false →
  isTimerRunning s = false ∧ elapsedTime s = 0
  ∧ formattedTime s = "00:00"%string.
Proof.
  intros (_ & Hrun & Hzero & _)%reachable_clockInvariant Hst.
  specialize (Hzero Hst). split; [|split; [done|]].
  - destruct (isTimerRunning s); [|done]. specialize (Hrun eq_refl).
    congruence.
  - rewrite formattedTime_elapsed, Hzero. reflexivity.
Qed.

(** X9. The elapsed time is never negative. *)
Theorem elapsed_time_nonnegative
    (random_index : nat → Z → Z) (s : state) :
  reachable random_index s → 0 ≤ elapsedTime s.
Proof. by intros (_ & _ & _ & Hpos)%reachable_clockInvariant. Qed.

Lemma firstGameWatched_reachable : reachable demoRandom firstGameWatched.
Proof.
  apply (reachable_step demoRandom (NewGame 1) setup).
  - apply reachable_setup.
  - vm_compute. reflexivity.
Qed.

Lemma lastMove_reachable : reachable demoRandom lastMove.
Proof.
  apply (reachable_step demoRandom (Click 14) midGame).
  - apply midGame_reachable.
  - vm_compute. reflexivity.
Qed.

Lemma wonGame_reachable : reachable demoRandom wonGame.
Proof.
  apply (reachable_step demoRandom (Click 15) lastMove).
  - apply lastMove_reachable.
  - vm_compute. reflexivity.
Qed.

Lemma complete_board_has_stopped_timer_witness :
  isTimerRunning wonGame = false.
Proof.
  apply (complete_board_has_stopped_timer demoRandom wonGame).
  - apply wonGame_reachable.
  - reflexivity.
Defined.

Lemma one_interval_at_most_witness :
  (isTimerRunning midGame = false →
   timerInterval midGame = None ∧ activeIntervals midGame = [])
  ∧ (isTimerRunning midGame = true →
     ∃ id, timerInterval midGame = Some id ∧ activeIntervals midGame = [id]).
Proof.
  apply (one_interval_at_most demoRandom midGame). apply midGame_reachable.
Defined.

Lemma no_tick_after_stop_witness :
  elapsedTime wonGame = elapsedTime wonGame.
Proof.
  apply (no_tick_after_stop demoRandom 1%positive wonGame wonGame).
  - apply wonGame_reachable.
  - reflexivity.
  - vm_compute. reflexivity.
Defined.

Lemma tick_adds_one_second_witness :
  step demoRandom (Tick 1%positive) midGame
  = Some (with_elapsedTime (elapsedTime midGame + 1) midGame).
Proof.
  apply (tick_adds_one_second demoRandom midGame 1%positive).
  - apply midGame_reachable.
  - reflexivity.
  - vm_compute. reflexivity.
Defined.

Lemma clock_waits_for_first_move_witness :
  isTimerRunning firstGameWatched = false
  ∧ elapsedTime firstGameWatched = 0
  ∧ formattedTime firstGameWatched = "00:00"%string.
Proof.
  apply (clock_waits_for_first_move demoRandom firstGameWatched).
  - apply firstGameWatched_reachable.
  - reflexivity.
Defined.

Lemma elapsed_time_nonnegative_witness : 0 ≤ elapsedTime midGame.
Proof.
  apply (elapsed_time_nonnegative demoRandom midGame).
  apply midGame_reachable.
Defined.

(** X10. The first applied move of a game starts the session: the
    started flag is set with the clock still at 0, and the timer runs on
    one fresh interval, unless that very move completed the board. *)
Theorem first_move_starts_timer
    (random_index : nat → Z → Z) (s s' : state) (p : Z) :
  reachable random_index s → hasStarted s = false →
  moveApplied p s = true →
  step random_index (Click p) s = Some s' →
  hasStarted s' = true
  ∧ elapsedTime s' = 0
  ∧ isTimerRunning s' = negb (isComplete (tiles s'))
  ∧ activeIntervals s'
    = (if isComplete (tiles s') then [] else [nextIntervalId s]).
Proof.
  intros Hreach Hst Happ Hstep.
  pose proof (reachable_clockInvariant random_index s Hreach)
    as ((Hw & _ & Hiff & Hact) & Hrun & Hzero & _).
  specialize (Hzero Hst).
  assert (isTimerRunning s = false) as Hr.
  { destruct (isTimerRunning s); [|done]. specialize (Hrun eq_refl).
    congruence. }
  assert (timerInterval s = None) as Hti.
  { destruct (timerInterval s) as [i|]; [|done]. destruct Hiff as [_ Hiff].
    rewrite Hiff in Hr; [done | by eexists]. }
  rewrite Hti in Hact.
  unfold step in Hstep. simpl in Hstep. injection Hstep as <-.
  unfold moveApplied in Happ. apply andb_true_iff in Happ as [Hc Hadj].
  apply negb_true_iff in Hc. rewrite Hc in Hw.
  unfold handleTileClick. rewrite Hc, Hadj, Hst. simpl.
  destruct s as [t el r st ti ai ni rc w]. simpl in *. subst.
  unfold startTimer, flushWatch, onCompleteChange. simpl.
  set (t' := Js.swap (Js.spread t) p (findEmptyIndex t)).
  destruct (isComplete t') eqn:Hc'; simpl; rewrite ?Hc'; [|done].
  unfold base.filter. simpl. by destruct (decide_rel _ _ _).
Qed.

Lemma first_move_starts_timer_witness :
  hasStarted midGame = true
  ∧ elapsedTime midGame = 0
  ∧ isTimerRunning midGame = negb (isComplete (tiles midGame))
  ∧ activeIntervals midGame
    = (if isComplete (tiles midGame) then []
       else [nextIntervalId firstGameWatched]).
Proof.
  apply (first_move_starts_timer demoRandom firstGameWatched midGame 10).
  - apply firstGameWatched_reachable.
  - reflexivity.
  - reflexivity.
  - vm_compute. reflexivity.
Defined.

(** X11. Once the session has started, an applied move that does not
    complete the board changes the tiles and nothing else: the timer is
    neither restarted nor doubled. *)
Theorem later_moves_only_move_tiles
    (random_index : nat → Z → Z) (s : state) (p : Z) :
  reachable random_index s → hasStarted s = true →
  moveApplied p s = true →
  isComplete (tiles (handleTileClick p s)) = false →
  step random_index (Click p) s
  = Some (with_tiles
            (Js.swap (Js.spread (tiles s)) p (findEmptyIndex (tiles s))) s).
Proof.
  intros (Hw & _)%reachable_sessionInvariant Hst Happ.
  unfold step. simpl.
  unfold moveApplied in Happ. apply andb_true_iff in Happ as [Hc Hadj].
  apply negb_true_iff in Hc. rewrite Hc in Hw.
  unfold handleTileClick. rewrite Hc, Hadj, Hst. simpl. intros Hc'.
  f_equal. unfold flushWatch. simpl. by rewrite Hc', Hw.
Qed.

Lemma later_moves_only_move_tiles_witness :
  step demoRandom (Click 14) midGame
  = Some (with_tiles
            (Js.swap (Js.spread (tiles midGame)) 14
               (findEmptyIndex (tiles midGame))) midGame).
Proof.
  apply (later_moves_only_move_tiles demoRandom midGame 14).
  - apply midGame_reachable.
  - reflexivity.
  - reflexivity.
  - reflexivity.
Defined.

Lemma complete_step_frozen
    (random_index : nat → Z → Z) (e : event) (s : state) :
  sessionInvariant s → isComplete (tiles s) = true →
  isPlayEvent e = true → step random_index e s = Some s.
Proof.
  intros (Hw & Hdone & Hiff & Hact) Hc He.
  assert (flushWatch s = s) as Hflush.
  { unfold flushWatch. by rewrite Hw, eqb_reflx. }
  destruct e as [index|id| |]; try done; unfold step; simpl.
  - unfold handleTileClick. rewrite Hc. simpl. by rewrite Hflush.
  - destruct (timerInterval s) as [i|] eqn:Hti.
    { destruct Hiff as [_ Hiff]. rewrite Hdone in Hiff; [|done].
      by specialize (Hiff ltac:(by eexists)). }
    rewrite Hact. destruct (decide _) as [Hin|_]; [by inversion Hin|].
    simpl. by rewrite Hflush.
Qed.

(** X12. After the board is completed nothing moves any more: whatever
    clicks and ticks follow, the state, and with it the final time, stays
    as it is until a new game. *)
Theorem completed_game_is_frozen
    (random_index : nat → Z → Z) (es : list event) (s : state) :
  reachable random_index s → isComplete (tiles s) = true →
  forallb isPlayEvent es = true →
  steps random_index es s = Some s.
Proof.
  intros Hinv%reachable_sessionInvariant Hc.
  induction es as [|e es IH]; [done|].
  simpl. intros [He Hes]%andb_true_iff.
  rewrite (complete_step_frozen random_index e s Hinv Hc He). by apply IH.
Qed.

Lemma completed_game_is_frozen_witness :
  steps demoRandom [Click 11; Tick 1%positive; Click 14; Tick 2%positive]
    wonGame
  = Some wonGame.
Proof.
  apply (completed_game_is_frozen demoRandom
           [Click 11; Tick 1%positive; Click 14; Tick 2%positive] wonGame).
  - apply wonGame_reachable.
  - reflexivity.
  - reflexivity.
Defined.

(** X13. Unmounting stops the timer and leaves no interval registered;
    the elapsed time and the board stay as they are. *)
Theorem unmount_clears_interval
    (random_index : nat → Z → Z) (s s' : state) :
  reachable random_index s →
  step random_index Unmounted s = Some s' →
  isTimerRunning s' = false ∧ timerInterval s' = None
  ∧ activeIntervals s' = []
  ∧ elapsedTime s' = elapsedTime s ∧ tiles s' = tiles s.
Proof.
  intros Hreach Hstep.
  pose proof (reachable_sessionInvariant random_index s Hreach) as Hinv.
  pose proof (step_sessionInvariant random_index Unmounted s s' Hinv Hstep)
    as (_ & _ & Hiff & Hact).
  unfold step in Hstep. simpl in Hstep. injection Hstep as <-.
  destruct (stopTimer_fields s) as (Hr & He & _ & Ht & _).
  assert (isTimerRunning (flushWatch (stopTimer s)) = false) as Hr'.
  { destruct (isTimerRunning (flushWatch (stopTimer s))) eqn:E; [|done].
    apply flushWatch_flags in E. congruence. }
  rewrite flushWatch_clock, tiles_flushWatch, He, Ht.
  destruct (timerInterval (flushWatch (stopTimer s))) as [i|].
  - destruct Hiff as [_ Hiff]. rewrite Hiff in Hr'; [done | by eexists].
  - done.
Qed.

Lemma unmount_clears_interval_witness :
  isTimerRunning (flushWatch (stopTimer midGame)) = false
  ∧ timerInterval (flushWatch (stopTimer midGame)) = None
  ∧ activeIntervals (flushWatch (stopTimer midGame)) = []
  ∧ elapsedTime (flushWatch (stopTimer midGame)) = elapsedTime midGame
  ∧ tiles (flushWatch (stopTimer midGame)) = tiles midGame.
Proof.
  apply (unmount_clears_interval demoRandom midGame).
  - apply midGame_reachable.
  - reflexivity.
Defined.

(** ** More on the move *)

Lemma isAdjacent_adjacentTo (a : Js.array) (p : Z) :
  isAdjacent a p = adjacentTo (findEmptyIndex a) p.
Proof. reflexivity. Qed.

(** X14. After an applied move at a position of the grid the empty slot
    is at that position, and the tile that was there lies where the empty
    slot was. *)
Theorem empty_slot_moves_to_click (s : state) (p : Z) :
  holdsBoard (tiles s) → 0 ≤ p ≤ 15 → moveApplied p s = true →
  findEmptyIndex (tiles (handleTileClick p s)) = p
  ∧ Js.get (tiles (handleTileClick p s)) (findEmptyIndex (tiles s))
    = Js.get (tiles s) p.
Proof.
  intros (l & Ht & Hb) Hp Happ.
  destruct (board_has_empty l Hb) as [e He].
  destruct (handleTileClick_board s l p e Ht Hb He Hp Happ) as (v & Hv & ->).
  pose proof (proj1 (moveApplied_board s l p e Ht Hb He ltac:(lia)) Happ)
    as [_ Hadj].
  assert (Z.to_nat p ≠ e) as Hne.
  { intros <-. rewrite Z2Nat.id in Hadj by lia.
    by apply adjacent_irrefl in Hadj. }
  pose proof (lookup_lt_Some _ _ _ Hv) as Hplt.
  pose proof (lookup_lt_Some _ _ _ He) as Helt.
  set (l1 := <[e := v]> (<[Z.to_nat p := 15]> l)).
  assert (Spec.board l1) as Hb1 by by apply board_insert_swap.
  assert (l1 !! Z.to_nat p = Some 15) as Hp1.
  { unfold l1. rewrite list_lookup_insert_ne by done.
    by apply list_lookup_insert_eq. }
  assert (l1 !! e = Some v) as He1.
  { unfold l1. apply list_lookup_insert_eq. by rewrite length_insert. }
  split.
  - rewrite (findEmptyIndex_of_list l1 _ (board_NoDup l1 Hb1) Hp1). lia.
  - rewrite Ht, (findEmptyIndex_of_list l e (board_NoDup l Hb) He).
    rewrite (get_of_list_Some l1 e v He1).
    rewrite <- (Z2Nat.id p) at 1 by lia.
    by rewrite (get_of_list_Some l _ v Hv).
Qed.

Lemma empty_slot_moves_to_click_witness :
  findEmptyIndex (tiles (handleTileClick 11 (sessionWith swappedBoard))) = 11
  ∧ Js.get (tiles (handleTileClick 11 (sessionWith swappedBoard)))
      (findEmptyIndex (tiles (sessionWith swappedBoard)))
    = Js.get (tiles (sessionWith swappedBoard)) 11.
Proof.
  apply (empty_slot_moves_to_click (sessionWith swappedBoard) 11).
  - exists swappedBoard. split; [reflexivity|].
    apply boardb_sound. vm_compute. reflexivity.
  - lia.
  - reflexivity.
Defined.

(** X15. With the empty slot on the grid, the positions outside the grid
    that pass the adjacency test are exactly: the position four past the
    empty slot when that slot is in the bottom row, and position -4 when
    it is in the top-left corner. *)
Theorem isAdjacent_outside_grid (a : Js.array) (p : Z) :
  0 ≤ findEmptyIndex a ≤ 15 → p < 0 ∨ 15 < p →
  isAdjacent a p = true
  ↔ (p = findEmptyIndex a + 4 ∧ 12 ≤ findEmptyIndex a)
    ∨ (p = -4 ∧ findEmptyIndex a = 0).
Proof.
  intros He Hp. rewrite isAdjacent_adjacentTo.
  generalize dependent (findEmptyIndex a). intros e He.
  unfold adjacentTo. change GRID_SIZE with 4. cbv zeta.
  rewrite orb_true_iff, !andb_true_iff, !Z.eqb_eq.
  Z.to_euclidean_division_equations. lia.
Qed.

Lemma isAdjacent_outside_grid_witness :
  isAdjacent (Js.of_list emptyFirst) (-4) = true
  ↔ (-4 = findEmptyIndex (Js.of_list emptyFirst) + 4
     ∧ 12 ≤ findEmptyIndex (Js.of_list emptyFirst))
    ∨ (-4 = -4 ∧ findEmptyIndex (Js.of_list emptyFirst) = 0).
Proof.
  apply (isAdjacent_outside_grid (Js.of_list emptyFirst) (-4)).
  - vm_compute. split; discriminate.
  - lia.
Defined.

Lemma indexOf_from_found (v : Js.value) (k : Z) (a : Js.array) :
  0 ≤ k → Js.indexOf_from v k a = -1 → Some v ∉ a.
Proof.
  revert k. induction a as [|c a IH]; intros k Hk; simpl.
  - intros _ H. inversion H.
  - destruct (decide (c = Some v)) as [->|Hne]; [lia|].
    intros Hidx H. apply (IH (k + 1)); [lia|done|].
    inversion H; by subst.
Qed.

(** X16. When no cell holds the empty label, [findEmptyIndex] is -1 and
    the adjacency test fails at every position from 0 up: no click the
    template can send changes anything. *)
Theorem lost_empty_label_blocks_moves (s : state) (p : Z) :
  findEmptyIndex (tiles s) = -1 → 0 ≤ p →
  (Some (Js.Num EMPTY_TILE) ∉ tiles s)
  ∧ isAdjacent (tiles s) p = false
  ∧ handleTileClick p s = s.
Proof.
  intros Hidx Hp.
  assert (isAdjacent (tiles s) p = false) as Hadj.
  { rewrite isAdjacent_adjacentTo, Hidx.
    unfold adjacentTo. change GRID_SIZE with 4. cbv zeta.
    change (-1 / 4) with (-1). change (Z.rem (-1) 4) with (-1).
    pose proof (Z.div_pos p 4 Hp ltac:(lia)) as Hrow.
    pose proof (Z.rem_nonneg p 4 ltac:(lia) Hp) as Hcol.
    rewrite orb_false_iff, !andb_false_iff, !Z.eqb_neq. lia. }
  split; [by apply (indexOf_from_found _ 0)|]. split; [done|].
  apply handleTileClick_rejected. unfold moveApplied.
  by rewrite Hadj, andb_false_r.
Qed.

Lemma lost_empty_label_blocks_moves_witness :
  (Some (Js.Num EMPTY_TILE) ∉ tiles lostEmpty)
  ∧ isAdjacent (tiles lostEmpty) 4 = false
  ∧ handleTileClick 4 lostEmpty = lostEmpty.
Proof.
  apply (lost_empty_label_blocks_moves lostEmpty 4).
  - vm_compute. reflexivity.
  - lia.
Defined.

Lemma legalMoves_count_check :
  forallb
    (λ e, let n := length (List.filter (adjacentTo e) (seqZ 0 16)) in
          (2 <=? n)%nat && (n <=? 4)%nat)
    (seqZ 0 16) = true.
Proof. vm_compute. reflexivity. Qed.

(** X17. On a board that is not complete there are always at least two
    and at most four positions whose click is applied; on a complete
    board there is none. *)
Theorem legal_moves_two_to_four (s : state) :
  holdsBoard (tiles s) →
  (if isComplete (tiles s) then legalMoves s = []
   else (2 ≤ length (legalMoves s) ≤ 4)%nat).
Proof.
  intros (l & Ht & Hb). unfold legalMoves.
  destruct (isComplete (tiles s)) eqn:Hc.
  - apply filter_none. intros p _. unfold moveApplied. by rewrite Hc.
  - destruct (board_has_empty l Hb) as [e He].
    pose proof (board_lookup_range l e 15 Hb He) as [_ Hlt].
    rewrite (List.filter_ext _ (adjacentTo (Z.of_nat e))).
    + pose proof legalMoves_count_check as Hall.
      rewrite forallb_forall in Hall.
      specialize (Hall (Z.of_nat e)
                    ltac:(apply list_elem_of_In, elem_of_seqZ; lia)).
      cbv zeta in Hall. apply andb_true_iff in Hall as [H2 H4].
      apply Nat.leb_le in H2, H4. change TOTAL_TILES with 16. done.
    + intros p. unfold moveApplied. rewrite Hc, isAdjacent_adjacentTo, Ht.
      by rewrite (findEmptyIndex_of_list l e (board_NoDup l Hb) He).
Qed.

Lemma legal_moves_two_to_four_witness :
  (if isComplete (tiles firstGameWatched)
   then legalMoves firstGameWatched = []
   else (2 ≤ length (legalMoves firstGameWatched) ≤ 4)%nat).
Proof.
  apply (legal_moves_two_to_four firstGameWatched).
  exists almostSolved. split; [reflexivity|].
  apply boardb_sound. vm_compute. reflexivity.
Defined.

Example legalMoves_firstGame : legalMoves firstGameWatched = [10; 13; 15].
Proof. reflexivity. Qed.

(** ** The shuffle on any array *)

Lemma insert_head_Permutation_gen {A : Type} (l : list A) (j : nat) (a b : A) :
  l !! j = Some b → b :: <[j := a]> l ≡ₚ a :: l.
Proof.
  revert j. induction l as [|c l IH]; intros [|j] Hj; simplify_eq/=.
  - apply perm_swap.
  - rewrite perm_swap, (IH j Hj). apply perm_swap.
Qed.

Lemma insert_swap_Permutation_gen {A : Type}
    (l : list A) (i j : nat) (a b : A) :
  l !! i = Some a → l !! j = Some b →
  <[j := a]> (<[i := b]> l) ≡ₚ l.
Proof.
  revert i j. induction l as [|c l IH]; intros [|i] [|j] Hi Hj; simplify_eq/=.
  - done.
  - by apply insert_head_Permutation_gen.
  - by apply insert_head_Permutation_gen.
  - by rewrite (IH i j).
Qed.

(** The swap of two cells of an array without holes. *)
Lemma swap_dense (vs : list Js.value) (x y : nat) (vx vy : Js.value) :
  vs !! x = Some vx → vs !! y = Some vy →
  Js.swap (Some <$> vs) (Z.of_nat x) (Z.of_nat y)
  = Some <$> (<[y := vx]> (<[x := vy]> vs)).
Proof.
  intros Hx Hy.
  pose proof (lookup_lt_Some _ _ _ Hx) as Hxlt.
  pose proof (lookup_lt_Some _ _ _ Hy) as Hylt.
  unfold Js.swap, Js.get, Js.set.
  destruct (decide (Z.of_nat x < 0)) as [?|_]; [lia|].
  destruct (decide (Z.of_nat y < 0)) as [?|_]; [lia|].
  rewrite !Nat2Z.id, !list_lookup_fmap, Hx, Hy. simpl.
  rewrite length_fmap.
  destruct (decide (x < length vs)%nat) as [_|?]; [|lia].
  rewrite length_insert, length_fmap.
  destruct (decide (y < length vs)%nat) as [_|?]; [|lia].
  by rewrite !list_fmap_insert.
Qed.

Lemma shuffle_loop_draws
    (random_index : nat → Z → Z) (idxs : list Z) (a : Js.array)
    (calls : nat) :
  (fold_left
     (λ '(shuffled, calls) i,
        let j := random_index calls (i + 1) in
        (Js.swap shuffled i j, S calls))
     idxs (a, calls)).2
  = (calls + length idxs)%nat.
Proof.
  revert a calls. induction idxs as [|i idxs IH]; intros a calls; simpl.
  - lia.
  - rewrite IH. lia.
Qed.

(** Each shuffle draws one number per cell but the first. *)
Lemma shuffleArray_draws
    (random_index : nat → Z → Z) (a : Js.array) (calls : nat) :
  (shuffleArray random_index a calls).2 = (calls + (length a - 1))%nat.
Proof.
  unfold shuffleArray. rewrite shuffle_loop_draws.
  rewrite length_reverse, length_seqZ. unfold Js.length, Js.spread.
  rewrite length_fmap. lia.
Qed.

Lemma shuffle_loop_dense
    (random_index : nat → Z → Z) (idxs : list Z) (vs : list Js.value)
    (calls : nat) :
  (∀ k n, 0 < n → 0 ≤ random_index k n < n) →
  Forall (λ i, 0 ≤ i < Z.of_nat (length vs)) idxs →
  ∃ vs', (fold_left
            (λ '(shuffled, calls) i,
               let j := random_index calls (i + 1) in
               (Js.swap shuffled i j, S calls))
            idxs (Some <$> vs, calls)).1
         = Some <$> vs'
         ∧ vs' ≡ₚ vs.
Proof.
  intros Hrange Hidxs. revert vs calls Hidxs.
  induction idxs as [|i idxs IH]; intros vs calls Hidxs.
  - by exists vs.
  - inversion_clear Hidxs as [|? ? Hi Hrest]. cbn [fold_left].
    pose proof (Hrange calls (i + 1) ltac:(lia)) as Hj.
    set (j := random_index calls (i + 1)) in *.
    destruct (lookup_lt_is_Some_2 vs (Z.to_nat i)) as [vi Hvi]; [lia|].
    destruct (lookup_lt_is_Some_2 vs (Z.to_nat j)) as [vj Hvj]; [lia|].
    rewrite <- (Z2Nat.id i), <- (Z2Nat.id j) by lia.
    rewrite (swap_dense vs _ _ vi vj Hvi Hvj).
    set (vs1 := <[Z.to_nat j := vi]> (<[Z.to_nat i := vj]> vs)).
    assert (vs1 ≡ₚ vs) as Hperm
      by by apply insert_swap_Permutation_gen.
    destruct (IH vs1 (S calls)) as (vs' & Hfold & Hvs').
    { by rewrite (Permutation_length Hperm). }
    exists vs'. split; [exact Hfold|]. by rewrite Hvs'.
Qed.

(** X18. Whatever array it is given, [shuffleArray] returns an array
    without holes holding the same values in some order (a hole of the
    input counts as [undefined]), and it has drawn one random number per
    cell but the first: none at all for an empty or one-cell array. *)
Theorem shuffleArray_permutes
    (random_index : nat → Z → Z) (a : Js.array) (calls : nat) :
  (∀ k n, 0 < n → 0 ≤ random_index k n < n) →
  ∃ vs, shuffleArray random_index a calls
        = (Some <$> vs, (calls + (length a - 1))%nat)
        ∧ vs ≡ₚ default Js.Undefined <$> a.
Proof.
  intros Hrange.
  pose proof (shuffleArray_draws random_index a calls) as Hdraws.
  unfold shuffleArray in *.
  assert (Js.spread a = Some <$> (default Js.Undefined <$> a)) as Hspread.
  { unfold Js.spread. by rewrite <- list_fmap_compose. }
  rewrite Hspread in *.
  destruct (shuffle_loop_dense random_index
              (reverse (seqZ 1 (Js.length (Some <$> (default Js.Undefined <$> a)) - 1)))
              (default Js.Undefined <$> a) calls Hrange)
    as (vs & Hfold & Hperm).
  { apply Forall_reverse, Forall_seqZ. intros i Hi.
    unfold Js.length in Hi. rewrite !length_fmap in *. lia. }
  exists vs. split; [|done].
  destruct (fold_left _ _ _) as [r c]. simpl in *. by subst.
Qed.

Lemma shuffleArray_permutes_witness :
  ∃ vs, shuffleArray demoRandom
          [Some (Js.Num 7); None; Some (Js.Num 3); Some Js.Undefined] 4
        = (Some <$> vs, (4 + (4 - 1))%nat)
        ∧ vs ≡ₚ default Js.Undefined
                 <$> [Some (Js.Num 7); None; Some (Js.Num 3);
                      Some Js.Undefined].
Proof.
  apply (shuffleArray_permutes demoRandom
           [Some (Js.Num 7); None; Some (Js.Num 3); Some Js.Undefined] 4).
  apply demoRandom_range.
Defined.

Lemma randomCalls_resetTimer (s : state) :
  randomCalls (resetTimer s) = randomCalls s.
Proof. by destruct s as [? ? ? ? [?|] ? ? ? ?]. Qed.

Lemma shuffleUntilPlayable_first
    (random_index : nat → Z → Z) (fuel calls calls' : nat)
    (shuffled : Js.array) :
  shuffleUntilPlayable random_index fuel (Js.range TOTAL_TILES) calls
  = Some (shuffled, calls') →
  ∃ k, (k < fuel)%nat
       ∧ shuffled = attempt random_index calls k
       ∧ calls' = (calls + 15 * S k)%nat
       ∧ ∀ j, (j < k)%nat →
           playable (attempt random_index calls j) = false.
Proof.
  revert calls. induction fuel as [|fuel IH]; intros calls; [done|].
  cbn [shuffleUntilPlayable].
  pose proof (shuffleArray_draws random_index (Js.range TOTAL_TILES) calls)
    as Hdraws.
  assert (attempt random_index calls 0
          = (shuffleArray random_index (Js.range TOTAL_TILES) calls).1)
    as H0 by (unfold attempt; by rewrite Nat.mul_0_r, Nat.add_0_r).
  destruct (shuffleArray random_index (Js.range TOTAL_TILES) calls)
    as [a c]. simpl in Hdraws, H0. change (length _) with 16%nat in Hdraws.
  destruct (negb (isSolvable a) || Js.every _ a) eqn:Hexit.
  - intros (k & Hk & -> & -> & Hfirst)%IH. subst c.
    assert (∀ j, attempt random_index (calls + (16 - 1)) j
                 = attempt random_index calls (S j)) as Hshift.
    { intros j. unfold attempt. do 2 f_equal. lia. }
    exists (S k). split; [lia|]. split; [apply Hshift|]. split; [lia|].
    intros [|j] Hj.
    + rewrite H0. unfold playable. by rewrite Hexit.
    + rewrite <- Hshift. apply Hfirst. lia.
  - intros [= <- <-]. exists O. split; [lia|]. split; [done|].
    split; [lia|]. intros j Hj. lia.
Qed.

(** X19. The board [initGame] installs is the first playable shuffle of
    the sequence of attempts, every attempt before it was rejected, and
    fifteen random numbers were drawn for each attempt made. *)
Theorem initGame_installs_first_playable
    (random_index : nat → Z → Z) (fuel : nat) (s s' : state) :
  initGame random_index fuel s = Some s' →
  ∃ k, (k < fuel)%nat
       ∧ tiles s' = attempt random_index (randomCalls s) k
       ∧ playable (tiles s') = true
       ∧ randomCalls s' = (randomCalls s + 15 * S k)%nat
       ∧ ∀ j, (j < k)%nat →
           playable (attempt random_index (randomCalls s) j) = false.
Proof.
  intros (a & c & Hloop & ->)%initGame_Some.
  pose proof (shuffleUntilPlayable_exit _ _ _ _ _ _ Hloop) as Hplay.
  apply shuffleUntilPlayable_first in Hloop as (k & Hk & -> & -> & Hfirst).
  exists k. rewrite tiles_resetTimer, randomCalls_resetTimer. done.
Qed.

Lemma initGame_installs_first_playable_witness :
  ∃ k, (k < 1)%nat
       ∧ tiles firstGame = attempt demoRandom (randomCalls setup) k
       ∧ playable (tiles firstGame) = true
       ∧ randomCalls firstGame = (randomCalls setup + 15 * S k)%nat
       ∧ ∀ j, (j < k)%nat →
           playable (attempt demoRandom (randomCalls setup) j) = false.
Proof.
  apply (initGame_installs_first_playable demoRandom 1 setup firstGame).
  vm_compute. reflexivity.
Defined.

(** ** Moves and the solvability check *)

Lemma filter_fmap_length {A B : Type} (f : B → bool) (g : A → B) (l : list A) :
  length (List.filter f (g <$> l)) = length (List.filter (λ x, f (g x)) l).
Proof.
  unfold fmap. induction l as [|a l IH]; [done|]. simpl.
  destruct (f (g a)); simpl; by rewrite IH.
Qed.

Lemma filter_nth_seq_length (P : Z → bool) (r : list Z) :
  length (List.filter (λ j, P (nth j r 0)) (seq 0 (length r)))
  = length (List.filter P r).
Proof.
  induction r as [|x r IH]; [done|].
  cbn [length seq]. rewrite <- fmap_S_seq. cbn [List.filter nth].
  destruct (P x); cbn [length]; rewrite filter_fmap_length; simpl;
    by rewrite IH.
Qed.

Lemma inversionsFrom_cons_0 (x : Z) (r : list Z) :
  inversionsFrom (x :: r) 0 = length (List.filter (λ y, y <? x) r).
Proof.
  unfold inversionsFrom. cbn [length nth].
  rewrite Nat.sub_succ, Nat.sub_0_r, <- fmap_S_seq, filter_fmap_length.
  simpl. apply (filter_nth_seq_length (λ y, y <? x)).
Qed.

Lemma inversionsFrom_cons_S (x : Z) (r : list Z) (i : nat) :
  inversionsFrom (x :: r) (S i) = inversionsFrom r i.
Proof.
  unfold inversionsFrom. cbn [length nth].
  rewrite Nat.sub_succ, <- fmap_S_seq, filter_fmap_length. done.
Qed.

Lemma inversionsFrom_sum (ls : list Z) :
  sum_list (inversionsFrom ls <$> seq 0 (length ls)) = invCount ls.
Proof.
  induction ls as [|x r IH]; [done|].
  cbn [length seq fmap list_fmap sum_list sum_list_with invCount].
  rewrite inversionsFrom_cons_0. f_equal.
  rewrite <- IH, <- fmap_S_seq, <- list_fmap_compose.
  f_equal. apply list_fmap_ext. intros k i _. simpl.
  apply inversionsFrom_cons_S.
Qed.

Lemma inversions_invCount (ls : list Z) :
  Spec.inversions ls = Z.of_nat (invCount ls).
Proof. by rewrite inversions_sum, inversionsFrom_sum. Qed.

(** Exchanging two neighbours changes the count by one. *)
Lemma invCount_neighbours (l1 l2 : list Z) (a b : Z) :
  (invCount (l1 ++ a :: b :: l2) + (if (a <? b)%Z then 1 else 0)
   = invCount (l1 ++ b :: a :: l2) + (if (b <? a)%Z then 1 else 0))%nat.
Proof.
  induction l1 as [|x l1 IH]; simpl.
  - destruct (a <? b) eqn:Hab, (b <? a) eqn:Hba; simpl; lia.
  - rewrite !List.filter_app. simpl.
    destruct (a <? x), (b <? x); simpl; rewrite !length_app; simpl; lia.
Qed.

Lemma invCount_neighbours_parity (l1 l2 : list Z) (a b : Z) :
  a ≠ b →
  Nat.odd (invCount (l1 ++ b :: a :: l2))
  = negb (Nat.odd (invCount (l1 ++ a :: b :: l2))).
Proof.
  intros Hne. pose proof (invCount_neighbours l1 l2 a b) as Heq.
  destruct (a <? b) eqn:Hab, (b <? a) eqn:Hba;
    try apply Z.ltb_lt in Hab; try apply Z.ltb_lt in Hba;
    try apply Z.ltb_ge in Hab; try apply Z.ltb_ge in Hba; try lia.
  - replace (invCount (l1 ++ b :: a :: l2))
      with (S (invCount (l1 ++ a :: b :: l2))) by lia.
    by rewrite Nat.odd_succ, Nat.negb_odd.
  - replace (invCount (l1 ++ a :: b :: l2))
      with (S (invCount (l1 ++ b :: a :: l2))) by lia.
    by rewrite Nat.odd_succ, <- Nat.negb_odd, negb_involutive.
Qed.

(** Carrying a label over a run of other labels flips the parity once
    per label of the run. *)
Lemma invCount_jump_parity (l1 mid l2 : list Z) (b : Z) :
  b ∉ mid →
  Nat.odd (invCount (l1 ++ b :: mid ++ l2))
  = xorb (Nat.odd (length mid))
      (Nat.odd (invCount (l1 ++ mid ++ b :: l2))).
Proof.
  revert l1. induction mid as [|m mid IH]; intros l1 Hb.
  - simpl. by destruct (Nat.odd _).
  - apply not_elem_of_cons in Hb as [Hbm Hb].
    cbn [app length].
    rewrite (invCount_neighbours_parity l1 (mid ++ l2) m b) by done.
    replace (l1 ++ m :: b :: mid ++ l2) with ((l1 ++ [m]) ++ b :: mid ++ l2)
      by by rewrite <- app_assoc.
    rewrite (IH (l1 ++ [m]) Hb), <- app_assoc. simpl.
    rewrite Nat.odd_succ, <- Nat.negb_odd.
    by destruct (Nat.odd (length mid)), (Nat.odd (invCount _)).
Qed.

Lemma Z_odd_of_nat (n : nat) : Z.odd (Z.of_nat n) = Nat.odd n.
Proof.
  induction n as [|n IH]; [done|].
  rewrite Nat2Z.inj_succ, Z.odd_succ, Nat.odd_succ.
  by rewrite <- Z.negb_odd, <- Nat.negb_odd, IH.
Qed.

(** Two positions of a list, the cells between them, and the list with
    the two cells exchanged. *)
Lemma swap_decompose {A : Type} (l : list A) (i k : nat) (a b : A) :
  l !! i = Some a → l !! (i + S k)%nat = Some b →
  ∃ l1 mid l2,
    l = l1 ++ a :: mid ++ b :: l2
    ∧ length mid = k
    ∧ <[(i + S k)%nat := a]> (<[i := b]> l) = l1 ++ b :: mid ++ a :: l2.
Proof.
  intros Hi Hj.
  pose proof (take_drop_middle l i a Hi) as H1.
  assert (drop (S i) l !! k = Some b) as Hk.
  { rewrite lookup_drop. by replace (S i + k)%nat with (i + S k)%nat by lia. }
  pose proof (take_drop_middle _ k b Hk) as H2.
  assert (length (take i l) = i) as Hl1.
  { rewrite length_take. apply lookup_lt_Some in Hi. lia. }
  assert (length (take k (drop (S i) l)) = k) as Hmid.
  { rewrite length_take. apply lookup_lt_Some in Hk. lia. }
  exists (take i l), (take k (drop (S i) l)), (drop (S k) (drop (S i) l)).
  set (l1 := take i l) in *. set (mid := take k (drop (S i) l)) in *.
  set (l2 := drop (S k) (drop (S i) l)) in *.
  assert (l = l1 ++ a :: mid ++ b :: l2) as Hl by by rewrite H2, H1.
  split; [done|]. split; [done|].
  rewrite Hl at 1.
  rewrite (insert_app_r_alt l1 _ i) by lia.
  rewrite Hl1, Nat.sub_diag. cbn [insert list_insert].
  rewrite (insert_app_r_alt l1 _ (i + S k)) by lia.
  replace (i + S k - length l1)%nat with (S k) by lia.
  cbn [insert list_insert]. fold (@insert _ _ _ (@list_insert A)).
  rewrite (insert_app_r_alt mid _ k) by lia.
  by rewrite Hmid, Nat.sub_diag.
Qed.

Lemma decompose_NoDup {A : Type} (l1 mid l2 : list A) (a b : A) :
  NoDup (l1 ++ a :: mid ++ b :: l2) → (a ∉ mid) ∧ (b ∉ mid) ∧ a ≠ b.
Proof.
  intros Hnd%NoDup_ListNoDup. split; [|split].
  - apply NoDup_remove_2 in Hnd. intros Ha%list_elem_of_In. apply Hnd.
    apply in_or_app. right. apply in_or_app. by left.
  - replace (l1 ++ a :: mid ++ b :: l2) with ((l1 ++ a :: mid) ++ b :: l2)
      in Hnd by by rewrite <- app_assoc.
    apply NoDup_remove_2 in Hnd. intros Hb%list_elem_of_In. apply Hnd.
    apply in_or_app. left. apply in_or_app. right. by right.
  - apply NoDup_remove_2 in Hnd. intros ->. apply Hnd.
    apply in_or_app. right. apply in_or_app. right. by left.
Qed.

Lemma labels_app (l1 l2 : list Z) :
  Spec.labels (l1 ++ l2) = Spec.labels l1 ++ Spec.labels l2.
Proof. apply List.filter_app. Qed.

Lemma labels_cons (x : Z) (l : list Z) :
  Spec.labels (x :: l)
  = if decide (x = 15) then Spec.labels l else x :: Spec.labels l.
Proof.
  unfold Spec.labels. simpl. destruct (decide (x = 15)) as [->|Hne]; [done|].
  by apply Z.eqb_neq in Hne as ->.
Qed.

Lemma labels_no_empty (l : list Z) : 15 ∉ l → Spec.labels l = l.
Proof.
  induction l as [|x l IH]; [done|].
  intros [Hx Hl]%not_elem_of_cons. rewrite labels_cons, (IH Hl).
  by destruct (decide (x = 15)).
Qed.

(** Sliding the tile [v] over the run [mid] into the empty slot. *)
Lemma labels_slide_parity (l1 mid l2 : list Z) (v : Z) :
  15 ∉ mid → v ∉ mid → v ≠ 15 →
  Nat.odd (invCount (Spec.labels (l1 ++ v :: mid ++ 15 :: l2)))
  = xorb (Nat.odd (length mid))
      (Nat.odd (invCount (Spec.labels (l1 ++ 15 :: mid ++ v :: l2)))).
Proof.
  intros Hmid Hv Hne.
  rewrite !labels_app, !labels_cons, !labels_app, !labels_cons.
  rewrite (labels_no_empty mid Hmid).
  destruct (decide (v = 15)) as [?|_]; [done|].
  destruct (decide (15 = 15)) as [_|?]; [|done].
  by apply invCount_jump_parity.
Qed.

(** [isSolvable] on a board, as the parity of the row of the empty slot
    against the parity of the inversions. *)
Lemma isSolvable_xorb (l : list Z) (e : nat) :
  Spec.board l → l !! e = Some 15 →
  isSolvable (Js.of_list l)
  = xorb (Z.odd (4 - Z.of_nat e / 4))
      (Nat.odd (invCount (Spec.labels l))).
Proof.
  intros Hb He.
  pose proof (board_lookup_range l e 15 Hb He) as [_ Hlt].
  pose proof (findEmptyIndex_of_list l e (board_NoDup l Hb) He) as Hidx.
  unfold findEmptyIndex in Hidx.
  unfold isSolvable. cbv zeta.
  rewrite filter_of_list, countInversions_spec, inversions_invCount, Hidx.
  change GRID_SIZE with 4.
  assert (0 ≤ 4 - Z.of_nat e / 4) as Hrow.
  { assert (Z.of_nat e / 4 < 4); [|lia].
    apply Z.div_lt_upper_bound; lia. }
  destruct (parity_test _ Hrow) as [-> _].
  destruct (parity_test (Z.of_nat (invCount (Spec.labels l))) ltac:(lia))
    as [-> ->].
  rewrite <- Z.negb_odd, Z_odd_of_nat.
  by destruct (Z.odd _), (Nat.odd _).
Qed.

Lemma adjacent_cases (p e : Z) :
  Spec.adjacent p e →
  (Z.abs (p - e) = 1 ∧ p / 4 = e / 4)
  ∨ (Z.abs (p - e) = 4 ∧ Z.abs (p / 4 - e / 4) = 1).
Proof.
  unfold Spec.adjacent, Spec.row, Spec.col.
  Z.to_euclidean_division_equations. lia.
Qed.

Lemma move_keeps_isSolvable_list (l : list Z) (e p : nat) (v : Z) :
  Spec.board l → l !! e = Some 15 → l !! p = Some v →
  Spec.adjacent (Z.of_nat p) (Z.of_nat e) →
  isSolvable (Js.of_list (<[e := v]> (<[p := 15]> l)))
  = isSolvable (Js.of_list l).
Proof.
  intros Hb He Hp Hadj.
  assert (p ≠ e) as Hne by (intros ->; by apply adjacent_irrefl in Hadj).
  pose proof (lookup_lt_Some _ _ _ Hp) as Hplt.
  pose proof (lookup_lt_Some _ _ _ He) as Helt.
  set (l' := <[e := v]> (<[p := 15]> l)).
  assert (Spec.board l') as Hb' by by apply board_insert_swap.
  assert (l' !! p = Some 15) as Hp'.
  { unfold l'. rewrite list_lookup_insert_ne by done.
    by apply list_lookup_insert_eq. }
  rewrite (isSolvable_xorb l' p Hb' Hp'), (isSolvable_xorb l e Hb He).
  pose proof (board_NoDup l Hb) as Hnd.
  assert (∃ k, (Z.abs (Z.of_nat p - Z.of_nat e) = Z.of_nat (S k))
               ∧ Nat.odd (invCount (Spec.labels l'))
                 = xorb (Nat.odd k) (Nat.odd (invCount (Spec.labels l))))
    as (k & Hk & Hinv).
  { destruct (decide (e < p)%nat) as [Hlt|Hge].
    - assert (∃ k, p = (e + S k)%nat) as [k ->]
        by (exists (p - e - 1)%nat; lia).
      exists k. split; [lia|].
      destruct (swap_decompose l e k 15 v He Hp)
        as (l1 & mid & l2 & Hl & Hmid & Hl').
      unfold l'. rewrite list_insert_insert_ne, Hl' by lia.
      rewrite Hl in Hnd |- *.
      destruct (decompose_NoDup _ _ _ _ _ Hnd) as (Hempty & Hv & Hev).
      rewrite <- Hmid. by apply labels_slide_parity.
    - assert (∃ k, e = (p + S k)%nat) as [k ->]
        by (exists (e - p - 1)%nat; lia).
      exists k. split; [lia|].
      destruct (swap_decompose l p k v 15 Hp He)
        as (l1 & mid & l2 & Hl & Hmid & Hl').
      unfold l'. rewrite Hl'. rewrite Hl in Hnd |- *.
      destruct (decompose_NoDup _ _ _ _ _ Hnd) as (Hv & Hempty & Hev).
      rewrite <- Hmid, (labels_slide_parity l1 mid l2 v) by done.
      by destruct (Nat.odd (length mid)), (Nat.odd (invCount _)). }
  rewrite Hinv. rewrite !Z.odd_sub. change (Z.odd 4) with false.
  destruct (adjacent_cases _ _ Hadj) as [[Habs Hrow]|[Habs Hrow]].
  - assert (k = 0%nat) as -> by lia. by rewrite Hrow.
  - assert (k = 3%nat) as -> by lia.
    assert (Z.odd (Z.of_nat p / 4) = negb (Z.odd (Z.of_nat e / 4))) as ->.
    { destruct (decide (Z.of_nat p / 4 = Z.of_nat e / 4 + 1)) as [->|?].
      - rewrite Z.odd_add. simpl. by destruct (Z.odd _).
      - replace (Z.of_nat p / 4) with (Z.of_nat e / 4 - 1) by lia.
        rewrite Z.odd_sub. simpl. by destruct (Z.odd _). }
    simpl.
    by destruct (Z.odd (Z.of_nat e / 4)),
         (Nat.odd (invCount (Spec.labels l))).
Qed.

(** X20. A click at a position of the grid never changes the verdict of
    [isSolvable]: an applied move keeps the parity the check looks at, a
    rejected one keeps the board. *)
Theorem move_keeps_isSolvable (s : state) (p : Z) :
  holdsBoard (tiles s) → 0 ≤ p ≤ 15 →
  isSolvable (tiles (handleTileClick p s)) = isSolvable (tiles s).
Proof.
  intros (l & Ht & Hb) Hp.
  destruct (moveApplied p s) eqn:Happ.
  - destruct (board_has_empty l Hb) as [e He].
    destruct (handleTileClick_board s l p e Ht Hb He Hp Happ)
      as (v & Hv & ->).
    pose proof (proj1 (moveApplied_board s l p e Ht Hb He ltac:(lia)) Happ)
      as [_ Hadj].
    rewrite Ht. apply move_keeps_isSolvable_list; try done.
    by rewrite Z2Nat.id by lia.
  - by rewrite (handleTileClick_rejected p s Happ).
Qed.

Lemma move_keeps_isSolvable_witness :
  isSolvable (tiles (handleTileClick 10 firstGameWatched))
  = isSolvable (tiles firstGameWatched).
Proof.
  apply (move_keeps_isSolvable firstGameWatched 10).
  - exists almostSolved. split; [reflexivity|].
    apply boardb_sound. vm_compute. reflexivity.
  - lia.
Defined.

(** ** Sessions played through the page *)

Lemma holdsBoard_length (a : Js.array) : holdsBoard a → Js.length a = 16.
Proof.
  intros (l & -> & Hb). unfold Js.length.
  by rewrite of_list_length, (board_length l Hb).
Qed.

(** X21. In every session played through the page, with clicks only on
    rendered tiles, the tile array is empty (before the first game) or
    holds a permutation board that passes [isSolvable]: no game ever
    leaves the solvable boards. *)
Theorem page_board_stays_solvable
    (random_index : nat → Z → Z) (s : state) :
  (∀ k n, 0 < n → 0 ≤ random_index k n < n) →
  uiReachable random_index s →
  tiles s = [] ∨ (holdsBoard (tiles s) ∧ isSolvable (tiles s) = true).
Proof.
  intros Hrange.
  induction 1 as [|index s s' _ IH Hidx Hstep|e s s' _ IH He Hstep].
  - by left.
  - unfold step in Hstep. simpl in Hstep. injection Hstep as <-.
    rewrite tiles_flushWatch.
    destruct IH as [Hnil|[Hb Hs]].
    + rewrite Hnil in Hidx. unfold Js.length in Hidx. simpl in Hidx. lia.
    + rewrite (holdsBoard_length _ Hb) in Hidx. right. split.
      * apply handleTileClick_holdsBoard; [done|lia].
      * rewrite move_keeps_isSolvable; [done..|lia].
  - unfold step in Hstep.
    destruct (handle random_index e s) as [s1|] eqn:Hh; [|done].
    simpl in Hstep. injection Hstep as <-. rewrite tiles_flushWatch.
    destruct e as [index|id|fuel|]; simpl in Hh.
    + by destruct (He index).
    + by destruct (decide _); injection Hh as <-.
    + apply initGame_Some in Hh as (a & c & Hloop & ->).
      rewrite tiles_resetTimer. simpl. right.
      by destruct (shuffleUntilPlayable_output _ Hrange _ _ _ _ Hloop)
        as (? & ? & _).
    + injection Hh as <-. by rewrite tiles_stopTimer.
Qed.

Lemma midGame_uiReachable : uiReachable demoRandom midGame.
Proof.
  apply (uiReachable_click demoRandom 10 firstGameWatched).
  - apply (uiReachable_other demoRandom (NewGame 1) setup).
    + apply uiReachable_setup.
    + done.
    + vm_compute. reflexivity.
  - vm_compute. split; [discriminate | reflexivity].
  - vm_compute. reflexivity.
Qed.

Lemma page_board_stays_solvable_witness :
  tiles midGame = []
  ∨ (holdsBoard (tiles midGame) ∧ isSolvable (tiles midGame) = true).
Proof.
  apply (page_board_stays_solvable demoRandom midGame).
  - apply demoRandom_range.
  - apply midGame_uiReachable.
Defined.

Lemma labels_elem_of (x : Z) (l : list Z) : x ∉ l → x ∉ Spec.labels l.
Proof.
  intros Hx Hin%list_elem_of_In. apply Hx, list_elem_of_In.
  unfold Spec.labels in Hin. by apply List.filter_In in Hin as [? _].
Qed.

Lemma exchange_flips_ordered (l : list Z) (i k e : nat) (a b : Z) :
  Spec.board l → l !! e = Some 15 →
  l !! i = Some a → l !! (i + S k)%nat = Some b → a ≠ 15 → b ≠ 15 →
  isSolvable (Js.of_list (<[(i + S k)%nat := a]> (<[i := b]> l)))
  = negb (isSolvable (Js.of_list l)).
Proof.
  intros Hb He Hi Hj Ha15 Hb15.
  pose proof (board_NoDup l Hb) as Hnd.
  set (l' := <[(i + S k)%nat := a]> (<[i := b]> l)).
  assert (Spec.board l') as Hb' by by apply board_insert_swap.
  assert (l' !! e = Some 15) as He'.
  { unfold l'. rewrite !list_lookup_insert_ne; [done|intros <-..];
      congruence. }
  rewrite (isSolvable_xorb l' e Hb' He'), (isSolvable_xorb l e Hb He).
  destruct (swap_decompose l i k a b Hi Hj)
    as (l1 & mid & l2 & Hl & _ & Hl').
  unfold l'. rewrite Hl'. rewrite Hl in Hnd |- *.
  destruct (decompose_NoDup _ _ _ _ _ Hnd) as (Ha & Hbm & Hab).
  rewrite !labels_app, !labels_cons, !labels_app, !labels_cons.
  destruct (decide (a = 15)) as [?|_]; [done|].
  destruct (decide (b = 15)) as [?|_]; [done|].
  apply labels_elem_of in Ha, Hbm.
  set (L1 := Spec.labels l1). set (M := Spec.labels mid) in *.
  set (L2 := Spec.labels l2).
  assert (b ∉ a :: M) as Hb_run
    by (apply not_elem_of_cons; split; [congruence | done]).
  pose proof (invCount_jump_parity L1 (a :: M) L2 b Hb_run) as H1.
  pose proof (invCount_jump_parity (L1 ++ [b]) M L2 a Ha) as H2.
  rewrite <- !app_assoc in H2. simpl in H1, H2.
  rewrite H2, Nat.odd_succ, <- Nat.negb_odd in H1.
  destruct (Z.odd _), (Nat.odd (length M)),
    (Nat.odd (invCount (L1 ++ b :: M ++ a :: L2))),
    (Nat.odd (invCount (L1 ++ a :: M ++ b :: L2))); simpl in *; congruence.
Qed.

(** X22. Exchanging any two tiles of a board flips the verdict of
    [isSolvable]: of the two boards exactly one is accepted. *)
Theorem exchanging_two_tiles_flips_isSolvable
    (l : list Z) (i j : nat) (a b : Z) :
  Spec.board l → l !! i = Some a → l !! j = Some b → i ≠ j →
  a ≠ 15 → b ≠ 15 →
  isSolvable (Js.of_list (<[j := a]> (<[i := b]> l)))
  = negb (isSolvable (Js.of_list l)).
Proof.
  intros Hb Hi Hj Hne Ha Hb15.
  destruct (board_has_empty l Hb) as [e He].
  destruct (decide (i < j)%nat) as [Hlt|Hge].
  - assert (∃ k, j = (i + S k)%nat) as [k ->]
      by (exists (j - i - 1)%nat; lia).
    by apply (exchange_flips_ordered l i k e a b).
  - assert (∃ k, i = (j + S k)%nat) as [k ->]
      by (exists (i - j - 1)%nat; lia).
    rewrite list_insert_insert_ne by done.
    by apply (exchange_flips_ordered l j k e b a).
Qed.

Lemma exchanging_two_tiles_flips_isSolvable_witness :
  isSolvable (Js.of_list (<[1%nat := 0]> (<[0%nat := 1]> (seqZ 0 16))))
  = negb (isSolvable (Js.of_list (seqZ 0 16))).
Proof.
  apply (exchanging_two_tiles_flips_isSolvable (seqZ 0 16) 0 1 0 1).
  - apply board_solved_list.
  - reflexivity.
  - reflexivity.
  - lia.
  - lia.
  - lia.
Defined.

(** ** Every order can be dealt *)

Lemma oracleOf_range (js : list Z) (k : nat) (n : Z) :
  0 < n → 0 ≤ oracleOf js k n < n.
Proof. unfold oracleOf. lia. Qed.

Lemma snoc_length {A : Type} (l : list A) (m : nat) :
  length l = S m → ∃ l' x, l = l' ++ [x] ∧ length l' = m.
Proof.
  destruct l as [|y l _] using rev_ind; [done|].
  rewrite length_app. simpl. intros Hlen. exists l, y. split; [done|lia].
Qed.

(** The loop of the shuffle leaves a last cell alone when its indices
    stay below it. *)
Lemma shuffle_loop_frame
    (random_index : nat → Z → Z) (idxs : list Z) (vs : list Js.value)
    (t : Js.value) (calls : nat) :
  (∀ k n, 0 < n → 0 ≤ random_index k n < n) →
  Forall (λ i, 0 ≤ i < Z.of_nat (length vs)) idxs →
  ∃ vs', (fold_left
            (λ '(shuffled, calls) i,
               let j := random_index calls (i + 1) in
               (Js.swap shuffled i j, S calls))
            idxs (Some <$> vs, calls)).1
         = Some <$> vs'
         ∧ (fold_left
              (λ '(shuffled, calls) i,
                 let j := random_index calls (i + 1) in
                 (Js.swap shuffled i j, S calls))
              idxs (Some <$> (vs ++ [t]), calls)).1
           = Some <$> (vs' ++ [t]).
Proof.
  intros Hrange Hidxs. revert vs calls Hidxs.
  induction idxs as [|i idxs IH]; intros vs calls Hidxs.
  - by exists vs.
  - inversion_clear Hidxs as [|? ? Hi Hrest]. cbn [fold_left].
    pose proof (Hrange calls (i + 1) ltac:(lia)) as Hj.
    set (j := random_index calls (i + 1)) in *.
    destruct (lookup_lt_is_Some_2 vs (Z.to_nat i)) as [vi Hvi]; [lia|].
    destruct (lookup_lt_is_Some_2 vs (Z.to_nat j)) as [vj Hvj]; [lia|].
    rewrite <- (Z2Nat.id i), <- (Z2Nat.id j) by lia.
    rewrite (swap_dense vs _ _ vi vj Hvi Hvj).
    rewrite (swap_dense (vs ++ [t]) _ _ vi vj);
      [|rewrite lookup_app_l; [done|by eapply lookup_lt_Some]..].
    rewrite (insert_app_l vs) by by eapply lookup_lt_Some.
    rewrite (insert_app_l (<[_ := _]> vs))
      by (rewrite length_insert; by eapply lookup_lt_Some).
    apply IH. by rewrite !length_insert.
Qed.

Lemma shuffle_loop_reaches (m : nat) :
  ∀ (vs target : list Js.value) (calls : nat),
    length vs = S m → target ≡ₚ vs →
    ∃ js, length js = m
          ∧ (∀ k, (k < m)%nat → 0 ≤ nth k js 0 ≤ Z.of_nat (m - k))
          ∧ ∀ random_index,
              (∀ k n, 0 < n → 0 ≤ random_index k n < n) →
              (∀ k, (k < m)%nat →
                 random_index (calls + k)%nat (Z.of_nat (m - k) + 1)
                 = nth k js 0) →
              (fold_left
                 (λ '(shuffled, calls) i,
                    let j := random_index calls (i + 1) in
                    (Js.swap shuffled i j, S calls))
                 (reverse (seqZ 1 (Z.of_nat m))) (Some <$> vs, calls)).1
              = Some <$> target.
Proof.
  induction m as [|m IH]; intros vs target calls Hlen Hperm.
  - exists []. split; [done|]. split; [intros; lia|]. intros rnd _ _. simpl.
    destruct vs as [|v [|? ?]]; try done.
    by apply Permutation_singleton_r in Hperm as ->.
  - destruct (snoc_length target (S m)) as (target' & t & -> & Hlen').
    { by rewrite (Permutation_length Hperm). }
    assert (t ∈ vs) as Ht.
    { rewrite <- Hperm. apply elem_of_app. right. by left. }
    apply list_elem_of_lookup_1 in Ht as [j Hj].
    pose proof (lookup_lt_Some _ _ _ Hj) as Hjlt.
    destruct (lookup_lt_is_Some_2 vs (S m)) as [x Hx]; [lia|].
    set (vs1 := <[j := x]> (<[S m := t]> vs)).
    assert (vs1 ≡ₚ vs) as Hperm1
      by by apply insert_swap_Permutation_gen.
    assert (vs1 !! S m = Some t) as Hlast.
    { unfold vs1. destruct (decide (j = S m)) as [->|Hne].
      - rewrite list_lookup_insert_eq by (rewrite length_insert; lia).
        congruence.
      - rewrite list_lookup_insert_ne by done.
        apply list_lookup_insert_eq. lia. }
    destruct (snoc_length vs1 (S m)) as (init & t' & Hvs1 & Hinit).
    { by rewrite (Permutation_length Hperm1). }
    assert (t' = t) as ->.
    { rewrite Hvs1, lookup_app_r, Hinit, Nat.sub_diag in Hlast by lia.
      by injection Hlast. }
    assert (target' ≡ₚ init) as Hperm'.
    { apply Permutation_app_inv_r with (l := [t]).
      by rewrite <- Hvs1, Hperm1. }
    destruct (IH init target' (S calls) Hinit Hperm')
      as (js & Hjs & Hbounds & Hrun).
    exists (Z.of_nat j :: js). split; [simpl; lia|]. split.
    { intros [|k] Hk; simpl; [lia|]. apply Hbounds. lia. }
    intros rnd Hrange Hagree.
    replace (Z.of_nat (S m)) with (Z.of_nat m + 1) by lia.
    rewrite seqZ_app, reverse_app by lia.
    replace (1 + Z.of_nat m) with (Z.of_nat (S m)) by lia.
    change (reverse (seqZ (Z.of_nat (S m)) 1)) with [Z.of_nat (S m)].
    cbn [app fold_left].
    pose proof (Hagree O ltac:(lia)) as H0.
    rewrite Nat.add_0_r, Nat.sub_0_r in H0. simpl nth in H0.
    rewrite H0.
    rewrite (swap_dense vs (S m) j x t Hx Hj). fold vs1. rewrite Hvs1.
    destruct (shuffle_loop_frame rnd (reverse (seqZ 1 (Z.of_nat m)))
                init t (S calls) Hrange) as (vs' & Hfold & Hframe).
    { apply Forall_reverse, Forall_seqZ. intros i Hi. lia. }
    etrans; [exact Hframe|].
    assert (Some <$> vs' = Some <$> target') as Heq.
    { etrans; [symmetry; exact Hfold|]. apply Hrun; [done|].
      intros k Hk. specialize (Hagree (S k) ltac:(lia)).
      simpl in Hagree. rewrite <- Hagree. f_equal. lia. }
    by apply (inj (fmap Some)) in Heq as ->.
Qed.

Lemma spread_dense (vs : list Js.value) :
  Js.spread (Some <$> vs) = Some <$> vs.
Proof.
  unfold Js.spread. rewrite <- list_fmap_compose. by apply list_fmap_ext.
Qed.

(** X23. The shuffle can produce every order: for each arrangement of the
    cells of an array without holes there are random draws, all in range,
    for which [shuffleArray] returns that arrangement. *)
Theorem shuffleArray_reaches_every_order
    (vs target : list Js.value) (calls : nat) :
  target ≡ₚ vs →
  ∃ js, (∀ k n, 0 < n → 0 ≤ oracleOf js k n < n)
        ∧ (shuffleArray (oracleOf js) (Some <$> vs) calls).1
          = Some <$> target.
Proof.
  intros Hperm. unfold shuffleArray. rewrite spread_dense.
  destruct vs as [|v vs0].
  - apply Permutation_nil_r in Hperm as ->. exists [].
    split; [apply oracleOf_range | done].
  - destruct (shuffle_loop_reaches (length vs0) (v :: vs0) target calls
                eq_refl Hperm) as (js & Hjs & Hbounds & Hrun).
    exists (replicate calls 0 ++ js). split; [apply oracleOf_range|].
    unfold Js.length. rewrite length_fmap. cbn [length].
    replace (Z.of_nat (S (length vs0)) - 1) with (Z.of_nat (length vs0))
      by lia.
    apply Hrun; [apply oracleOf_range|].
    intros k Hk. unfold oracleOf.
    rewrite <- (length_replicate calls 0) at 1.
    rewrite app_nth2_plus. specialize (Hbounds k Hk). lia.
Qed.

Lemma shuffleArray_reaches_every_order_witness :
  ∃ js, (∀ k n, 0 < n → 0 ≤ oracleOf js k n < n)
        ∧ (shuffleArray (oracleOf js)
             (Some <$> [Js.Num 0; Js.Num 1; Js.Num 2]) 0).1
          = Some <$> [Js.Num 2; Js.Num 0; Js.Num 1].
Proof.
  apply (shuffleArray_reaches_every_order
           [Js.Num 0; Js.Num 1; Js.Num 2] [Js.Num 2; Js.Num 0; Js.Num 1] 0).
  etrans; [apply perm_swap|]. apply perm_skip, perm_swap.
Defined.

Lemma of_list_dense (l : list Z) : Js.of_list l = Some <$> (Js.Num <$> l).
Proof. unfold Js.of_list. by rewrite <- list_fmap_compose. Qed.

(** X24. Every playable board can be dealt: for each permutation board
    that passes [isSolvable] and is not complete there are random draws,
    all in range, with which [initGame] installs exactly that board at its
    first attempt. *)
Theorem every_playable_board_can_be_dealt (l : list Z) (s : state) :
  Spec.board l → playable (Js.of_list l) = true →
  ∃ js s', (∀ k n, 0 < n → 0 ≤ oracleOf js k n < n)
           ∧ initGame (oracleOf js) 1 s = Some s'
           ∧ tiles s' = Js.of_list l.
Proof.
  intros Hb Hplay.
  destruct (shuffleArray_reaches_every_order
              (Js.Num <$> seqZ 0 16) (Js.Num <$> l) (randomCalls s))
    as (js & Hrange & Hshuffle).
  { by apply fmap_Permutation. }
  rewrite <- !of_list_dense in Hshuffle.
  exists js. unfold initGame. cbn [shuffleUntilPlayable].
  change (Js.range TOTAL_TILES) with (Js.of_list (seqZ 0 16)).
  destruct (shuffleArray (oracleOf js) (Js.of_list (seqZ 0 16))
              (randomCalls s)) as [a c].
  simpl in Hshuffle. subst a.
  unfold playable in Hplay. apply negb_true_iff in Hplay. rewrite Hplay.
  eexists. split; [done|]. split; [done|]. by rewrite tiles_resetTimer.
Qed.

Lemma every_playable_board_can_be_dealt_witness :
  ∃ js s', (∀ k n, 0 < n → 0 ≤ oracleOf js k n < n)
           ∧ initGame (oracleOf js) 1 wonGame = Some s'
           ∧ tiles s' = Js.of_list emptyBottomLeft.
Proof.
  apply (every_playable_board_can_be_dealt emptyBottomLeft wonGame).
  - apply boardb_sound. vm_compute. reflexivity.
  - vm_compute. reflexivity.
Defined.

(** ** Calling the timer functions twice *)

(** X25. Starting, stopping or resetting the timer twice in a row is the
    same as doing it once: a second [startTimer] registers no second
    interval, a second [stopTimer] or [resetTimer] finds nothing left to
    clear. *)
Theorem timer_calls_are_idempotent (s : state) :
  startTimer (startTimer s) = startTimer s
  ∧ stopTimer (stopTimer s) = stopTimer s
  ∧ resetTimer (resetTimer s) = resetTimer s.
Proof.
  split; [|split].
  - apply startTimer_running. by destruct (startTimer_fields s) as (_ & _ & -> & _).
  - by destruct s as [? ? ? ? [?|] ? ? ? ?].
  - by destruct s as [? ? ? ? [?|] ? ? ? ?].
Qed.

(** X26. On a permutation board, a click at a position of the grid
    changes the tiles exactly when its move is applied: an applied move
    never leaves the board as it was. *)
Theorem click_changes_board_iff_applied (s : state) (p : Z) :
  holdsBoard (tiles s) → 0 ≤ p ≤ 15 →
  tiles (handleTileClick p s) ≠ tiles s ↔ moveApplied p s = true.
Proof.
  intros (l & Ht & Hb) Hp. split.
  - intros Hchanged. destruct (moveApplied p s) eqn:Happ; [done|].
    by rewrite (handleTileClick_rejected p s Happ) in Hchanged.
  - intros Happ. destruct (board_has_empty l Hb) as [e He].
    destruct (handleTileClick_board s l p e Ht Hb He Hp Happ)
      as (v & Hv & ->).
    pose proof (proj1 (moveApplied_board s l p e Ht Hb He ltac:(lia)) Happ)
      as [_ Hadj].
    assert (Z.to_nat p ≠ e) as Hne.
    { intros <-. rewrite Z2Nat.id in Hadj by lia.
      by apply adjacent_irrefl in Hadj. }
    rewrite Ht. intros Heq.
    apply (f_equal (λ a, a !! e)) in Heq.
    rewrite !of_list_lookup, He in Heq.
    rewrite list_lookup_insert_eq in Heq
      by (rewrite length_insert; by eapply lookup_lt_Some).
    simpl in Heq. injection Heq as ->.
    by pose proof (NoDup_lookup _ _ _ _ (board_NoDup l Hb) Hv He).
Qed.

Lemma click_changes_board_iff_applied_witness :
  tiles (handleTileClick 10 firstGameWatched) ≠ tiles firstGameWatched
  ↔ moveApplied 10 firstGameWatched = true.
Proof.
  apply (click_changes_board_iff_applied firstGameWatched 10).
  - exists almostSolved. split; [reflexivity|].
    apply boardb_sound. vm_compute. reflexivity.
  - lia.
Defined.
